(** * tanstack-table-search-params: the batched state updater

    A shallow embedding of [useBatchedStateUpdate.ts] and of the codecs it
    calls, with the properties the specification states about them.

    Layout: the data model, the platform functions ([JSON.stringify],
    [encodeURIComponent]), the effect monad of the updater, the updater
    itself, the codecs, the query adapter and the debounce layer; then the
    lemmas on each of them and the properties of the specification. *)

From Stdlib Require Import Ascii String DecimalString DecimalN DecimalZ.
From stdpp Require Import gmap strings list fin_maps functions.

Local Open Scope string_scope.
Local Open Scope list_scope.
Set Warnings "-register-all".

(** ** Data model *)

(** A query value is [string | string[] | undefined]. *)
Inductive QueryValue :=
| QString (s : string)
| QArray (l : list string)
| QUndefined.

#[global] Instance QueryValue_eq_dec : EqDecision QueryValue.
Proof. solve_decision. Defined.

(** [Query]: the parsed query string, a JS object used as a map.  The map
    keeps the entries of the object and forgets the order in which its
    keys were inserted; in the source that order shows in one place only,
    the order of the pairs of the URL. *)
Abbreviation Query := (gmap string QueryValue).

Definition isDefined (v : QueryValue) : bool :=
  match v with QUndefined => false | _ => true end.

(** The value of a column filter is [unknown] in the source; the values that
    survive [JSON.stringify] are JSON trees. *)
Inductive FilterValue :=
| JNull
| JBool (b : bool)
| JNumber (n : Z)
| JString (s : string)
| JArray (l : list FilterValue).

Record ColumnSort := { sort_id : string; desc : bool }.
Record ColumnFilter := { filter_id : string; value : FilterValue }.
Record PaginationState := { pageIndex : N; pageSize : N }.

(** Row selection is a [Record<string, boolean>]; its keys are kept in
    the order in which [JSON.stringify] lists them: the integer-like keys
    first, in numeric order, then the others in insertion order. *)
Abbreviation RowSelectionState := (list (string * bool)).

Record State := {
  globalFilter : option string;
  sorting : list ColumnSort;
  pagination : PaginationState;
  columnFilters : list ColumnFilter;
  columnOrder : list string;
  rowSelection : RowSelectionState
}.

#[global] Instance ColumnSort_eq_dec : EqDecision ColumnSort.
Proof. solve_decision. Defined.
#[global] Instance PaginationState_eq_dec : EqDecision PaginationState.
Proof. solve_decision. Defined.

(** Thrown values. *)
Inductive JsError := Error (message : string).

(** The completion of a call: a value, or a thrown exception. *)
Inductive Completion (A : Type) :=
| Normal (a : A)
| Throw (e : JsError).
Arguments Normal {A} a.
Arguments Throw {A} e.

Module Router.
(** [router.query] and [router.pathname]; [router.navigate] is an effect,
    recorded in the trace of the updater. *)
Record t := { query : Query; pathname : string }.
End Router.

Module PaginationNames.
Record t := { pageIndex : string; pageSize : string }.
End PaginationNames.

Module ParamNames.
Record t := {
  globalFilter : option string;
  sorting : option string;
  pagination : option PaginationNames.t;
  columnFilters : option string;
  columnOrder : option string;
  rowSelection : option string
}.
End ParamNames.

Module DefaultValues.
Record t := {
  globalFilter : option string;
  sorting : option (list ColumnSort);
  pagination : option PaginationState;
  columnFilters : option (list ColumnFilter);
  columnOrder : option (list string);
  rowSelection : option RowSelectionState
}.
End DefaultValues.

Module Encoders.
(** Caller-supplied encoders: each returns an object that is merged into
    the updates, or throws. *)
Record t := {
  globalFilter : option (option string -> Completion Query);
  sorting : option (list ColumnSort -> Completion Query);
  pagination : option (PaginationState -> Completion Query);
  columnFilters : option (list ColumnFilter -> Completion Query);
  columnOrder : option (list string -> Completion Query);
  rowSelection : option (RowSelectionState -> Completion Query)
}.
End Encoders.

Record Options := {
  paramNames : option ParamNames.t;
  defaultValues : option DefaultValues.t;
  encoders : option Encoders.t
}.

(** What [encodePagination] returns: [{ pageIndex, pageSize }], each a
    query value or [undefined]. *)
Module EncodedPagination.
Record t := { pageIndex : QueryValue; pageSize : QueryValue }.
End EncodedPagination.

(** The default codecs of [./encoder-decoder], which the updater imports. *)
Class DefaultEncoders := {
  encodeGlobalFilter : option string -> option string -> QueryValue;
  encodeSorting : list ColumnSort -> option (list ColumnSort) -> QueryValue;
  encodePagination :
    PaginationState -> option PaginationState -> EncodedPagination.t;
  encodeColumnFilters :
    list ColumnFilter -> option (list ColumnFilter) -> QueryValue;
  encodeColumnOrder : list string -> option (list string) -> QueryValue;
  encodeRowSelection :
    RowSelectionState -> option RowSelectionState -> QueryValue
}.

(** [new URLSearchParams(convertQueryToURLSearchParams(q)).toString()],
    as a function of the entries of the query: the order of the pairs
    in the string is the serializer's, not the insertion order of the
    keys, which a [Query] does not keep. *)
Class QuerySerializer := { searchParamsString : Query -> string }.

(** ** Platform functions *)

Definition DQUOTE : ascii := "034"%char.
Definition BACKSLASH : ascii := "092"%char.

Definition str1 (c : ascii) : string := String c EmptyString.

Definition hexDigitLower (n : N) : ascii :=
  ascii_of_N (if (n <? 10)%N then 48 + n else 87 + n).
Definition hexDigitUpper (n : N) : ascii :=
  ascii_of_N (if (n <? 10)%N then 48 + n else 55 + n).

(** [String(n)] for a natural number and for an integer. *)
Definition String_of_N (n : N) : string := NilZero.string_of_uint (N.to_uint n).
Definition String_of_Z (n : Z) : string := NilZero.string_of_int (Z.to_int n).

(** The quoting [JSON.stringify] applies to the characters of a string. *)
Definition JSON_quote_char (c : ascii) : string :=
  let n := N_of_ascii c in
  if decide (c = DQUOTE) then String BACKSLASH (str1 DQUOTE)
  else if decide (c = BACKSLASH) then String BACKSLASH (str1 BACKSLASH)
  else if decide (n = 8%N) then String BACKSLASH "b"
  else if decide (n = 9%N) then String BACKSLASH "t"
  else if decide (n = 10%N) then String BACKSLASH "n"
  else if decide (n = 12%N) then String BACKSLASH "f"
  else if decide (n = 13%N) then String BACKSLASH "r"
  else if (n <? 32)%N then
    String BACKSLASH ("u00" +:+ str1 (hexDigitLower (n / 16))
                            +:+ str1 (hexDigitLower (n mod 16)))
  else str1 c.

Fixpoint JSON_quote_chars (s : string) : string :=
  match s with
  | EmptyString => EmptyString
  | String c rest => JSON_quote_char c +:+ JSON_quote_chars rest
  end.

Definition JSON_stringify_string (s : string) : string :=
  String DQUOTE (JSON_quote_chars s +:+ str1 DQUOTE).

Definition JSON_stringify_bool (b : bool) : string :=
  if b then "true" else "false".

(** [xs.join(sep)]. *)
Fixpoint join (sep : string) (xs : list string) : string :=
  match xs with
  | [] => EmptyString
  | [x] => x
  | x :: rest => x +:+ sep +:+ join sep rest
  end.

Definition JSON_array (items : list string) : string :=
  "[" +:+ join "," items +:+ "]".

Definition JSON_member (key : string) (v : string) : string :=
  JSON_stringify_string key +:+ ":" +:+ v.

Definition JSON_object (members : list string) : string :=
  "{" +:+ join "," members +:+ "}".

Fixpoint JSON_stringify_value (v : FilterValue) : string :=
  match v with
  | JNull => "null"
  | JBool b => JSON_stringify_bool b
  | JNumber n => String_of_Z n
  | JString s => JSON_stringify_string s
  | JArray l => JSON_array (List.map JSON_stringify_value l)
  end.

Definition JSON_stringify_sorting (l : list ColumnSort) : string :=
  JSON_array (List.map (fun s =>
    JSON_object [JSON_member "id" (JSON_stringify_string (sort_id s));
                 JSON_member "desc" (JSON_stringify_bool (desc s))]) l).

Definition JSON_stringify_columnFilters (l : list ColumnFilter) : string :=
  JSON_array (List.map (fun f =>
    JSON_object [JSON_member "id" (JSON_stringify_string (filter_id f));
                 JSON_member "value" (JSON_stringify_value (value f))]) l).

Definition JSON_stringify_columnOrder (l : list string) : string :=
  JSON_array (List.map JSON_stringify_string l).

Definition JSON_stringify_rowSelection (r : RowSelectionState) : string :=
  JSON_object (List.map (fun kv =>
    JSON_member (fst kv) (JSON_stringify_bool (snd kv))) r).

(** [encodeURIComponent]: every byte is escaped as [%XX] except letters,
    digits and [- _ . ! ~ * ' ( )]. *)
Definition uriUnreserved (c : ascii) : bool :=
  let n := N_of_ascii c in
  ((48 <=? n) && (n <=? 57))%N || ((65 <=? n) && (n <=? 90))%N
  || ((97 <=? n) && (n <=? 122))%N
  || bool_decide (c ∈ ["-"; "_"; "."; "!"; "~"; "*"; "'"; "("; ")"]%char).

Definition percentEscape (c : ascii) : string :=
  let n := N_of_ascii c in
  String "%" (String (hexDigitUpper (n / 16)) (str1 (hexDigitUpper (n mod 16)))).

Fixpoint encodeURIComponent (s : string) : string :=
  match s with
  | EmptyString => EmptyString
  | String c rest =>
      (if uriUnreserved c then str1 c else percentEscape c)
      +:+ encodeURIComponent rest
  end.

(** ** The effects of the updater

    The updater mutates two local objects, [query] (a copy of
    [router.query]) and [updates], may throw (through a caller-supplied
    encoder), and calls [router.navigate].  Every mutation and every
    navigation is logged in [trace]. *)

Inductive Op :=
| OpSet (key : string) (v : QueryValue)      (* updates[key] = v *)
| OpDelete (key : string)                    (* delete query[key] *)
| OpAssign (source : Query)                  (* Object.assign(updates, source) *)
| OpNavigate (url : string).                 (* router.navigate(url) *)

Record Locals := { query : Query; updates : Query; trace : list Op }.

Definition applyOp (op : Op) (h : Locals) : Locals :=
  match op with
  | OpSet key v =>
      {| query := query h; updates := <[key := v]> (updates h);
         trace := trace h ++ [op] |}
  | OpDelete key =>
      {| query := delete key (query h); updates := updates h;
         trace := trace h ++ [op] |}
  | OpAssign source =>
      {| query := query h; updates := source ∪ updates h;
         trace := trace h ++ [op] |}
  | OpNavigate _ =>
      {| query := query h; updates := updates h; trace := trace h ++ [op] |}
  end.

Definition M (A : Type) : Type := Locals -> Completion A * Locals.

#[global] Instance M_ret : MRet M := fun A a h => (Normal a, h).
#[global] Instance M_bind : MBind M := fun A B f m h =>
  match m h with
  | (Normal a, h') => f a h'
  | (Throw e, h') => (Throw e, h')
  end.

Definition perform (op : Op) : M unit := fun h => (Normal tt, applyOp op h).
Definition call {A} (c : Completion A) : M A := fun h => (c, h).
Definition getLocals : M Locals := fun h => (Normal h, h).

(** [const query = { ...router.query }] and [const updates = {}]. *)
Definition declareQuery (q : Query) : M unit := fun h =>
  (Normal tt, {| query := q; updates := updates h; trace := trace h |}).
Definition declareUpdates : M unit := fun h =>
  (Normal tt, {| query := query h; updates := ∅; trace := trace h |}).

Definition run {A} (m : M A) : Completion A * Locals :=
  m {| query := ∅; updates := ∅; trace := [] |}.

(** [{ ...query, ...updates }] and the filter on [value !== undefined]. *)
Definition finalQuery (h : Locals) : Query := updates h ∪ query h.
Definition stripUndefined (q : Query) : Query :=
  filter (fun kv => kv.2 ≠ QUndefined) q.
Definition cleanQuery (h : Locals) : Query := stripUndefined (finalQuery h).

(** Optional chaining: [o ▹ f] stands for the source's [o?.f] on a value
    [o] that may be undefined. *)
Notation "o ▹ f" := (@mbind option _ _ _ f o)
  (at level 50, left associativity).

(** [name || fallback] on a string that may be undefined. *)
Definition orElse (name : option string) (fallback : string) : string :=
  match name with
  | Some (String c s) => String c s
  | _ => fallback
  end.

Inductive Slice :=
| GlobalFilter | Sorting | Pagination | ColumnFilters | ColumnOrder
| RowSelection.

#[global] Instance Slice_eq_dec : EqDecision Slice.
Proof. solve_decision. Defined.

(** The slices in the order the updater visits them. *)
Definition allSlices : list Slice :=
  [GlobalFilter; Sorting; Pagination; ColumnFilters; ColumnOrder; RowSelection].

(** The six change tests of the updater (lines 46, 65, 83, 110, 132, 154).
    On a state whose [pagination] is present, [?.] is plain field access. *)
Definition changed (sl : Slice) (oldState newState : State) : bool :=
  match sl with
  | GlobalFilter =>
      bool_decide (globalFilter newState ≠ globalFilter oldState)
  | Sorting =>
      bool_decide (JSON_stringify_sorting (sorting newState)
                   ≠ JSON_stringify_sorting (sorting oldState))
  | Pagination =>
      bool_decide (pageIndex (pagination newState)
                   ≠ pageIndex (pagination oldState))
      || bool_decide (pageSize (pagination newState)
                      ≠ pageSize (pagination oldState))
  | ColumnFilters =>
      bool_decide (JSON_stringify_columnFilters (columnFilters newState)
                   ≠ JSON_stringify_columnFilters (columnFilters oldState))
  | ColumnOrder =>
      bool_decide (JSON_stringify_columnOrder (columnOrder newState)
                   ≠ JSON_stringify_columnOrder (columnOrder oldState))
  | RowSelection =>
      bool_decide (JSON_stringify_rowSelection (rowSelection newState)
                   ≠ JSON_stringify_rowSelection (rowSelection oldState))
  end.

Section Updater.
Context {codec : DefaultEncoders} {serializer : QuerySerializer}.

(** [if (encoded !== undefined) updates[param] = encoded;
     else delete query[param]]. *)
Definition writeOrDelete (param : string) (encoded : QueryValue) : M unit :=
  if isDefined encoded then perform (OpSet param encoded)
  else perform (OpDelete param).

(** [Object.assign(updates, encoder(value))]: the encoder runs first and
    may throw. *)
Definition assignEncoded (result : Completion Query) : M unit :=
  source ← call result; perform (OpAssign source).

Definition globalFilterStep (options : option Options)
    (globalFilterParam : string) (oldState newState : State) : M unit :=
  if changed GlobalFilter oldState newState then
    match options ▹ encoders ▹ Encoders.globalFilter with
    | Some encoder => assignEncoded (encoder (globalFilter newState))
    | None =>
        let encoded :=
          encodeGlobalFilter (globalFilter newState)
            (options ▹ defaultValues ▹ DefaultValues.globalFilter) in
        writeOrDelete globalFilterParam encoded
    end
  else mret tt.

Definition sortingStep (options : option Options)
    (sortingParam : string) (oldState newState : State) : M unit :=
  if changed Sorting oldState newState then
    match options ▹ encoders ▹ Encoders.sorting with
    | Some encoder => assignEncoded (encoder (sorting newState))
    | None =>
        let encoded :=
          encodeSorting (sorting newState)
            (options ▹ defaultValues ▹ DefaultValues.sorting) in
        writeOrDelete sortingParam encoded
    end
  else mret tt.

Definition paginationStep (options : option Options)
    (pageIndexParam pageSizeParam : string)
    (oldState newState : State) : M unit :=
  if changed Pagination oldState newState then
    match options ▹ encoders ▹ Encoders.pagination with
    | Some encoder => assignEncoded (encoder (pagination newState))
    | None =>
        let encoded :=
          encodePagination (pagination newState)
            (options ▹ defaultValues ▹ DefaultValues.pagination) in
        writeOrDelete pageIndexParam (EncodedPagination.pageIndex encoded);;
        writeOrDelete pageSizeParam (EncodedPagination.pageSize encoded)
    end
  else mret tt.

Definition columnFiltersStep (options : option Options)
    (columnFiltersParam : string) (oldState newState : State) : M unit :=
  if changed ColumnFilters oldState newState then
    match options ▹ encoders ▹ Encoders.columnFilters with
    | Some encoder => assignEncoded (encoder (columnFilters newState))
    | None =>
        let encoded :=
          encodeColumnFilters (columnFilters newState)
            (options ▹ defaultValues ▹ DefaultValues.columnFilters) in
        writeOrDelete columnFiltersParam encoded
    end
  else mret tt.

Definition columnOrderStep (options : option Options)
    (columnOrderParam : string) (oldState newState : State) : M unit :=
  if changed ColumnOrder oldState newState then
    match options ▹ encoders ▹ Encoders.columnOrder with
    | Some encoder => assignEncoded (encoder (columnOrder newState))
    | None =>
        let encoded :=
          encodeColumnOrder (columnOrder newState)
            (options ▹ defaultValues ▹ DefaultValues.columnOrder) in
        writeOrDelete columnOrderParam encoded
    end
  else mret tt.

Definition rowSelectionStep (options : option Options)
    (rowSelectionParam : string) (oldState newState : State) : M unit :=
  if changed RowSelection oldState newState then
    match options ▹ encoders ▹ Encoders.rowSelection with
    | Some encoder => assignEncoded (encoder (rowSelection newState))
    | None =>
        let encoded :=
          encodeRowSelection (rowSelection newState)
            (options ▹ defaultValues ▹ DefaultValues.rowSelection) in
        writeOrDelete rowSelectionParam encoded
    end
  else mret tt.

(** [`${router.pathname}${searchParams ? `?${searchParams}` : ""}`]. *)
Definition navigateUrl (router : Router.t) (clean : Query) : string :=
  let searchParams := searchParamsString clean in
  Router.pathname router
  +:+ (match searchParams with
       | EmptyString => EmptyString
       | _ => "?" +:+ searchParams
       end).

Definition defaultPaginationNames : PaginationNames.t :=
  {| PaginationNames.pageIndex := "pageIndex";
     PaginationNames.pageSize := "pageSize" |}.

(** The callback of [useBatchedStateUpdate]. *)
Definition update (router : Router.t) (options : option Options)
    (oldState newState : State) : M unit :=
  declareQuery (Router.query router);;
  let globalFilterParam :=
    orElse (options ▹ paramNames ▹ ParamNames.globalFilter)
           "globalFilter" in
  let sortingParam :=
    orElse (options ▹ paramNames ▹ ParamNames.sorting) "sorting" in
  let columnFiltersParam :=
    orElse (options ▹ paramNames ▹ ParamNames.columnFilters)
           "columnFilters" in
  let columnOrderParam :=
    orElse (options ▹ paramNames ▹ ParamNames.columnOrder)
           "columnOrder" in
  let rowSelectionParam :=
    orElse (options ▹ paramNames ▹ ParamNames.rowSelection)
           "rowSelection" in
  (* a pagination entry of [paramNames] is an object, so the [typeof]
     tests of lines 34 and 38 take their first branch *)
  let paginationParams :=
    default defaultPaginationNames
            (options ▹ paramNames ▹ ParamNames.pagination) in
  let pageIndexParam := PaginationNames.pageIndex paginationParams in
  let pageSizeParam := PaginationNames.pageSize paginationParams in
  declareUpdates;;
  globalFilterStep options globalFilterParam oldState newState;;
  sortingStep options sortingParam oldState newState;;
  paginationStep options pageIndexParam pageSizeParam oldState newState;;
  columnFiltersStep options columnFiltersParam oldState newState;;
  columnOrderStep options columnOrderParam oldState newState;;
  rowSelectionStep options rowSelectionParam oldState newState;;
  h ← getLocals;
  perform (OpNavigate (navigateUrl router (cleanQuery h))).

End Updater.

(** ** Vocabulary for the properties of the updater *)

(** The seven query parameters the six slices own: pagination has two. *)
Inductive Param :=
| PGlobalFilter | PSorting | PPageIndex | PPageSize | PColumnFilters
| PColumnOrder | PRowSelection.

#[global] Instance Param_eq_dec : EqDecision Param.
Proof. solve_decision. Defined.

Definition allParams : list Param :=
  [PGlobalFilter; PSorting; PPageIndex; PPageSize; PColumnFilters;
   PColumnOrder; PRowSelection].

Definition sliceOf (p : Param) : Slice :=
  match p with
  | PGlobalFilter => GlobalFilter
  | PSorting => Sorting
  | PPageIndex | PPageSize => Pagination
  | PColumnFilters => ColumnFilters
  | PColumnOrder => ColumnOrder
  | PRowSelection => RowSelection
  end.

(** The parameter names computed at lines 18 to 40. *)
Definition paramName (options : option Options) (p : Param) : string :=
  match p with
  | PGlobalFilter =>
      orElse (options ▹ paramNames ▹ ParamNames.globalFilter) "globalFilter"
  | PSorting => orElse (options ▹ paramNames ▹ ParamNames.sorting) "sorting"
  | PPageIndex =>
      PaginationNames.pageIndex
        (default defaultPaginationNames
                 (options ▹ paramNames ▹ ParamNames.pagination))
  | PPageSize =>
      PaginationNames.pageSize
        (default defaultPaginationNames
                 (options ▹ paramNames ▹ ParamNames.pagination))
  | PColumnFilters =>
      orElse (options ▹ paramNames ▹ ParamNames.columnFilters) "columnFilters"
  | PColumnOrder =>
      orElse (options ▹ paramNames ▹ ParamNames.columnOrder) "columnOrder"
  | PRowSelection =>
      orElse (options ▹ paramNames ▹ ParamNames.rowSelection) "rowSelection"
  end.

(** What the caller-supplied encoder of a slice returns on the new state;
    [None] when the slice has no such encoder. *)
Definition overrideResult (options : option Options) (newState : State)
    (sl : Slice) : option (Completion Query) :=
  match sl with
  | GlobalFilter =>
      (fun encoder => encoder (globalFilter newState))
        <$> options ▹ encoders ▹ Encoders.globalFilter
  | Sorting =>
      (fun encoder => encoder (sorting newState))
        <$> options ▹ encoders ▹ Encoders.sorting
  | Pagination =>
      (fun encoder => encoder (pagination newState))
        <$> options ▹ encoders ▹ Encoders.pagination
  | ColumnFilters =>
      (fun encoder => encoder (columnFilters newState))
        <$> options ▹ encoders ▹ Encoders.columnFilters
  | ColumnOrder =>
      (fun encoder => encoder (columnOrder newState))
        <$> options ▹ encoders ▹ Encoders.columnOrder
  | RowSelection =>
      (fun encoder => encoder (rowSelection newState))
        <$> options ▹ encoders ▹ Encoders.rowSelection
  end.

(** What the default codec yields for a parameter on the new state. *)
Definition defaultEncoded {codec : DefaultEncoders} (options : option Options)
    (newState : State) (p : Param) : QueryValue :=
  match p with
  | PGlobalFilter =>
      encodeGlobalFilter (globalFilter newState)
        (options ▹ defaultValues ▹ DefaultValues.globalFilter)
  | PSorting =>
      encodeSorting (sorting newState)
        (options ▹ defaultValues ▹ DefaultValues.sorting)
  | PPageIndex =>
      EncodedPagination.pageIndex
        (encodePagination (pagination newState)
           (options ▹ defaultValues ▹ DefaultValues.pagination))
  | PPageSize =>
      EncodedPagination.pageSize
        (encodePagination (pagination newState)
           (options ▹ defaultValues ▹ DefaultValues.pagination))
  | PColumnFilters =>
      encodeColumnFilters (columnFilters newState)
        (options ▹ defaultValues ▹ DefaultValues.columnFilters)
  | PColumnOrder =>
      encodeColumnOrder (columnOrder newState)
        (options ▹ defaultValues ▹ DefaultValues.columnOrder)
  | PRowSelection =>
      encodeRowSelection (rowSelection newState)
        (options ▹ defaultValues ▹ DefaultValues.rowSelection)
  end.

(** The exception a slice raises: its encoder is called, and throws. *)
Definition thrownBy (options : option Options) (oldState newState : State)
    (sl : Slice) : option JsError :=
  if changed sl oldState newState then
    match overrideResult options newState sl with
    | Some (Throw e) => Some e
    | _ => None
    end
  else None.

(** The first exception in the order of the slices. *)
Definition firstThrow (options : option Options) (oldState newState : State)
    : option JsError :=
  head (omap (thrownBy options oldState newState) allSlices).

(** Parameter [p] puts its hand on key [k]: its slice changed, and either
    the default codec handles it under the name [k], or the slice's own
    encoder returns an object with the key [k]. *)
Definition claims (options : option Options) (oldState newState : State)
    (p : Param) (k : string) : Prop :=
  changed (sliceOf p) oldState newState = true ∧
  match overrideResult options newState (sliceOf p) with
  | None => paramName options p = k
  | Some (Normal source) => is_Some (source !! k)
  | Some (Throw _) => False
  end.

Definition navigations (tr : list Op) : list string :=
  omap (fun op => match op with OpNavigate url => Some url | _ => None end) tr.

Definition isMutation (op : Op) : bool :=
  match op with OpNavigate _ => false | _ => true end.

Definition paramsOf (sl : Slice) : list Param :=
  match sl with
  | GlobalFilter => [PGlobalFilter]
  | Sorting => [PSorting]
  | Pagination => [PPageIndex; PPageSize]
  | ColumnFilters => [PColumnFilters]
  | ColumnOrder => [PColumnOrder]
  | RowSelection => [PRowSelection]
  end.

(** The mutation [writeOrDelete] performs. *)
Definition writeOp (key : string) (encoded : QueryValue) : Op :=
  if isDefined encoded then OpSet key encoded else OpDelete key.

(** The mutations of one slice, or the exception its encoder throws. *)
Definition sliceOps {codec : DefaultEncoders} (options : option Options)
    (oldState newState : State) (sl : Slice) : Completion (list Op) :=
  if changed sl oldState newState then
    match overrideResult options newState sl with
    | Some (Normal source) => Normal [OpAssign source]
    | Some (Throw e) => Throw e
    | None =>
        Normal ((fun p => writeOp (paramName options p)
                                  (defaultEncoded options newState p))
                <$> paramsOf sl)
    end
  else Normal [].

Definition runOps (ops : list Op) (h : Locals) : Locals :=
  foldl (fun h op => applyOp op h) h ops.

(** The mutations of the slices up to the first exception. *)
Fixpoint opsUntilThrow (steps : list (Completion (list Op))) : list Op :=
  match steps with
  | [] => []
  | Normal ops :: rest => ops ++ opsUntilThrow rest
  | Throw _ :: _ => []
  end.

Definition plannedOps {codec : DefaultEncoders} (options : option Options)
    (oldState newState : State) : list Op :=
  opsUntilThrow (sliceOps options oldState newState <$> allSlices).

(** The locals after lines 15 and 43 and after the six slices. *)
Definition initialLocals (router : Router.t) : Locals :=
  {| query := Router.query router; updates := ∅; trace := [] |}.

Definition mergedLocals {codec : DefaultEncoders} (router : Router.t)
    (options : option Options) (oldState newState : State) : Locals :=
  runOps (plannedOps options oldState newState) (initialLocals router).

(** How a slice's step acts on the locals. *)
Definition stepResult (c : Completion (list Op)) (h : Locals)
    : Completion unit * Locals :=
  match c with
  | Normal ops => (Normal tt, runOps ops h)
  | Throw e => (Throw e, h)
  end.

(** A mutation writes key [k] into [updates]; a mutation touches [k] when
    it writes it or deletes it from [query]. *)
Definition opWrites (k : string) (op : Op) : Prop :=
  match op with
  | OpSet key _ => key = k
  | OpAssign source => is_Some (source !! k)
  | OpDelete _ | OpNavigate _ => False
  end.

Definition opTouches (k : string) (op : Op) : Prop :=
  opWrites k op ∨ op = OpDelete k.

(** No caller-supplied encoder that the updater calls throws. *)
Definition encodersReturn (options : option Options)
    (oldState newState : State) : Prop :=
  ∀ sl e, changed sl oldState newState = true →
          overrideResult options newState sl ≠ Some (Throw e).

(** The two states hold the same value in slice [sl]. *)
Definition sameSlice (sl : Slice) (a b : State) : Prop :=
  match sl with
  | GlobalFilter => globalFilter a = globalFilter b
  | Sorting => sorting a = sorting b
  | Pagination => pagination a = pagination b
  | ColumnFilters => columnFilters a = columnFilters b
  | ColumnOrder => columnOrder a = columnOrder b
  | RowSelection => rowSelection a = rowSelection b
  end.


(** ** Proof automation for the steps of the updater *)

(** Unfolds the step of one slice on the three paths it can take:
    unchanged, own encoder, default codec. *)
Ltac step_ops enc :=
  unfold sliceOps, overrideResult, writeOrDelete, assignEncoded, writeOp;
  destruct (changed _ _ _); [|done];
  destruct enc as [encoder|]; simpl;
  [ unfold mbind, M_bind, call; by destruct (encoder _)
  | repeat (unfold mbind, M_bind, perform; simpl);
    repeat (destruct (isDefined _); simpl); done ].

(** Closes the case in which the mutations stop at a thrown exception. *)
Ltac until_throw :=
  cbn [opsUntilThrow head]; unfold runOps;
  rewrite ?app_nil_r, ?foldl_app; done.

(** * The default codecs

    [./encoder-decoder] is imported by the updater; the definitions below
    follow section 4.1 of the specification. *)

#[global] Instance FilterValue_eq_dec : EqDecision FilterValue.
Proof.
  refine (fix go (x y : FilterValue) {struct x} : Decision (x = y) :=
    match x, y with
    | JNull, JNull => left eq_refl
    | JBool a, JBool b => cast_if (decide (a = b))
    | JNumber a, JNumber b => cast_if (decide (a = b))
    | JString a, JString b => cast_if (decide (a = b))
    | JArray a, JArray b => cast_if (@list_eq_dec _ go a b)
    | _, _ => right _
    end); abstract congruence.
Defined.

#[global] Instance ColumnFilter_eq_dec : EqDecision ColumnFilter.
Proof. solve_decision. Defined.

(** What the specification leaves open in the codecs: the delimiter of the
    joined values and the pagination assumed when none is configured. *)
Class CodecParameters := {
  delimiter : ascii;
  initialPagination : PaginationState
}.

Definition hexValue (c : ascii) : option N :=
  let n := N_of_ascii c in
  if ((48 <=? n) && (n <=? 57))%N then Some (n - 48)%N
  else if ((65 <=? n) && (n <=? 70))%N then Some (n - 55)%N
  else if ((97 <=? n) && (n <=? 102))%N then Some (n - 87)%N
  else None.

(** [Number(s)] on the decimal numerals [String(n)] produces. *)
Definition parseN (s : string) : option N :=
  N.of_uint <$> NilZero.uint_of_string s.

Module Codec.
Section Codec.
Context {parameters : CodecParameters}.

(** Modelled from the spec: [encodeGlobalFilter] of [./encoder-decoder].
    The string itself; [undefined] or equal-to-default encodes to
    [undefined]. *)
Definition encodeGlobalFilter (value defaultValue : option string)
    : QueryValue :=
  match value with
  | None => QUndefined
  | Some s => if decide (value = defaultValue) then QUndefined else QString s
  end.

(** Modelled from the spec: the encoding of a sequence slice of
    [./encoder-decoder].  The empty sequence and the default encode to
    [undefined]; the others to the entries joined by the delimiter. *)
Definition encodeSequence {A} `{EqDecision A} (encodeItem : A -> string)
    (value : list A) (defaultValue : option (list A)) : QueryValue :=
  if decide (value = [] ∨ Some value = defaultValue) then QUndefined
  else QString (join (str1 delimiter) (encodeItem <$> value)).

(** Modelled from the spec: the entry format of [encodeSorting], a
    column id with its direction. *)
Definition encodeSort (s : ColumnSort) : string :=
  sort_id s +:+ "." +:+ (if desc s then "desc" else "asc").

Definition encodeSorting := encodeSequence encodeSort.

(** Modelled from the spec: the entry format of [encodeColumnFilters],
    [id.<url-encoded JSON of the value>]. *)
Definition encodeColumnFilter (f : ColumnFilter) : string :=
  filter_id f +:+ "." +:+ encodeURIComponent (JSON_stringify_value (value f)).

Definition encodeColumnFilters := encodeSequence encodeColumnFilter.

(** Modelled from the spec: [encodeColumnOrder] of [./encoder-decoder],
    the column ids joined by the delimiter. *)
Definition encodeColumnOrder := encodeSequence (fun id : string => id).

(** Modelled from the spec: [encodeRowSelection] of [./encoder-decoder].
    Only the keys whose value is [true], joined by the delimiter; the
    empty mapping and the default encode to [undefined]. *)
Definition encodeRowSelection (value : RowSelectionState)
    (defaultValue : option RowSelectionState) : QueryValue :=
  if decide (value = [] ∨ Some value = defaultValue) then QUndefined
  else QString (join (str1 delimiter)
                     (fst <$> filter (fun kv => kv.2 = true) value)).

(** Modelled from the spec: [encodePagination] of [./encoder-decoder].
    Two scalars, each omitted when equal to its default; the page index
    is written one-based. *)
Definition encodePagination (value : PaginationState)
    (defaultValue : option PaginationState) : EncodedPagination.t :=
  let d := default initialPagination defaultValue in
  {| EncodedPagination.pageIndex :=
       if decide (pageIndex value = pageIndex d) then QUndefined
       else QString (String_of_N (pageIndex value + 1));
     EncodedPagination.pageSize :=
       if decide (pageSize value = pageSize d) then QUndefined
       else QString (String_of_N (pageSize value)) |}.

(** Modelled from the spec: [decodePagination] of [./encoder-decoder].
    The page index is read one-based and is never negative, the page
    size is a positive integer; a missing or invalid parameter yields
    the default. *)
Definition decodePagination (queryValues : EncodedPagination.t)
    (defaultValue : option PaginationState) : PaginationState :=
  let d := default initialPagination defaultValue in
  {| pageIndex :=
       match EncodedPagination.pageIndex queryValues with
       | QString s =>
           match parseN s with
           | Some n => if decide (n = 0%N) then pageIndex d else (n - 1)%N
           | None => pageIndex d
           end
       | _ => pageIndex d
       end;
     pageSize :=
       match EncodedPagination.pageSize queryValues with
       | QString s =>
           match parseN s with
           | Some n => if decide (n = 0%N) then pageSize d else n
           | None => pageSize d
           end
       | _ => pageSize d
       end |}.

#[global] Instance encoders : DefaultEncoders :=
  Build_DefaultEncoders encodeGlobalFilter encodeSorting encodePagination
    encodeColumnFilters encodeColumnOrder encodeRowSelection.

End Codec.
End Codec.


(** * The query adapter *)

(** The escaping of [URLSearchParams.toString()]: letters, digits and
    [* - . _] stay, a space becomes [+], every other byte is [%XX]. *)
Definition formUnreserved (c : ascii) : bool :=
  let n := N_of_ascii c in
  ((48 <=? n) && (n <=? 57))%N || ((65 <=? n) && (n <=? 90))%N
  || ((97 <=? n) && (n <=? 122))%N
  || bool_decide (c ∈ ["*"; "-"; "."; "_"]%char).

Fixpoint formEncode (s : string) : string :=
  match s with
  | EmptyString => EmptyString
  | String c rest =>
      (if formUnreserved c then str1 c
       else if decide (c = " "%char) then "+"
       else percentEscape c)
      +:+ formEncode rest
  end.

(** Modelled from the spec: [convertQueryToURLSearchParams], the query
    adapter of section 4.2.  An array-valued entry is repeated under its
    key and an undefined entry is omitted.  The pairs come in the order
    in which the map enumerates its keys; in the source they come in the
    insertion order of the keys, so a string of two pairs or more may
    list them in another order than the source does.  No property is
    stated on such a string: the properties hold for every serializer or
    speak of the navigated query, and the URLs of the examples have one
    pair at most. *)
Definition convertQueryToURLSearchParams (q : Query)
    : list (string * string) :=
  '(k, v) ← map_to_list q;
  match v with
  | QString s => [(k, s)]
  | QArray l => (fun s => (k, s)) <$> l
  | QUndefined => []
  end.

Definition URLSearchParams_toString (pairs : list (string * string))
    : string :=
  join "&" ((fun kv => formEncode kv.1 +:+ "=" +:+ formEncode kv.2) <$> pairs).

Definition standardSerializer : QuerySerializer :=
  {| searchParamsString q :=
       URLSearchParams_toString (convertQueryToURLSearchParams q) |}.

(** The parameters used in the examples: a comma as delimiter and page 0 of
    size 10 as the initial pagination. *)
Definition standardParameters : CodecParameters :=
  {| delimiter := ","%char;
     initialPagination := {| pageIndex := 0; pageSize := 10 |} |}.

(** * The debounce layer *)

Module Debounce.

(** Modelled from the spec: the pending timer of a slice (section 4.4),
    with the snapshots observed when it was started. *)
Record Pending := { due : N; oldSnapshot : State; newSnapshot : State }.

(** Modelled from the spec: the per-slice pending-timer set of one
    binding, on a clock in milliseconds. *)
Record Scheduler := {
  clock : N;
  timers : Slice -> option Pending;
  observed : State
}.

Definition idle (now : N) (initial : State) : Scheduler :=
  {| clock := now; timers := fun _ => None; observed := initial |}.

(** The state [into] with the slices selected by [pick] taken from
    [from]. *)
Definition mergeSlices (pick : Slice -> bool) (from into : State) : State :=
  let choose {A} (sl : Slice) (field : State -> A) :=
    if pick sl then field from else field into in
  {| globalFilter := choose GlobalFilter globalFilter;
     sorting := choose Sorting sorting;
     pagination := choose Pagination pagination;
     columnFilters := choose ColumnFilters columnFilters;
     columnOrder := choose ColumnOrder columnOrder;
     rowSelection := choose RowSelection rowSelection |}.

(** Modelled from the spec: a state-change event.  Each changed slice
    with a positive delay restarts its timer, which cancels the pending
    one; the changed slices with zero delay are handed to the batched
    updater at once. *)
Definition onStateChange (delays : Slice -> N) (oldState newState : State)
    (s : Scheduler) : Scheduler * list (State * State) :=
  let debounced sl :=
    changed sl oldState newState && bool_decide (0 < delays sl)%N in
  let immediate sl :=
    changed sl oldState newState && bool_decide (delays sl = 0)%N in
  ({| clock := clock s;
      timers := fun sl =>
        if debounced sl then
          Some {| due := clock s + delays sl; oldSnapshot := oldState;
                  newSnapshot := newState |}
        else timers s sl;
      observed := newState |},
   if existsb immediate allSlices
   then [(oldState, mergeSlices immediate newState oldState)]
   else []).

Definition dueAt (s : Scheduler) (t : N) (sl : Slice) : bool :=
  match timers s sl with
  | Some p => bool_decide (due p = t)
  | None => false
  end.

(** Modelled from the spec: the expiry at time [t].  One call of the
    batched updater with the latest snapshots of every slice due. *)
Definition fire (t : N) (s : Scheduler) : Scheduler * list (State * State) :=
  let snapshot (side : Pending -> State) :=
    foldr (fun sl acc =>
             match timers s sl with
             | Some p =>
                 if bool_decide (due p = t)
                 then mergeSlices (fun sl' => bool_decide (sl' = sl))
                                  (side p) acc
                 else acc
             | None => acc
             end) (observed s) allSlices in
  ({| clock := t;
      timers := fun sl => if dueAt s t sl then None else timers s sl;
      observed := observed s |},
   [(snapshot oldSnapshot, snapshot newSnapshot)]).

(** The earliest pending deadline. *)
Definition nextDue (s : Scheduler) : option N :=
  foldr (fun sl acc =>
           match timers s sl, acc with
           | Some p, Some t => Some (N.min (due p) t)
           | Some p, None => Some (due p)
           | None, _ => acc
           end) None allSlices.

(** Time passes up to [t]: the timers due by then expire, earliest
    first.  Each expiry clears a timer, so one round per slice is
    enough. *)
Fixpoint advanceTo (rounds : nat) (t : N) (s : Scheduler)
    : Scheduler * list (State * State) :=
  let rest :=
    {| clock := t; timers := timers s; observed := observed s |} in
  match rounds with
  | O => (rest, [])
  | S rounds' =>
      match nextDue s with
      | Some d =>
          if (d <=? t)%N then
            let (s', calls) := fire d s in
            let (s'', calls') := advanceTo rounds' t s' in
            (s'', calls ++ calls')
          else (rest, [])
      | None => (rest, [])
      end
  end.

Definition advance (ms : N) (s : Scheduler)
    : Scheduler * list (State * State) :=
  advanceTo (length allSlices) (clock s + ms) s.

(** The calls of the batched updater that carry a change of slice [sl]:
    those whose two states differ in it. *)
Definition callsFor (sl : Slice) (calls : list (State * State))
    : list (State * State) :=
  filter (fun call => changed sl call.1 call.2 = true) calls.

(** The number of pending timers. *)
Definition pendingCount (s : Scheduler) : nat :=
  length (filter (fun sl => is_Some (timers s sl)) allSlices).

(** The scheduler holds one timer, that of [sl]. *)
Definition onlyTimer (sl : Slice) (s : Scheduler) (p : Pending) : Prop :=
  ∀ sl', timers s sl' = if decide (sl' = sl) then Some p else None.

End Debounce.

(** * Data of the examples *)

Module Example.

(** The updater with the codecs of section 4.1 and the query adapter. *)
Definition update (router : Router.t) (options : option Options)
    (oldState newState : State) : Completion unit * Locals :=
  run (update (codec := Codec.encoders (parameters := standardParameters))
              (serializer := standardSerializer)
              router options oldState newState).

Definition router (q : Query) : Router.t :=
  {| Router.query := q; Router.pathname := "/" |}.

(** The state of a table nothing has been done to. *)
Definition initialState : State :=
  {| globalFilter := None; sorting := [];
     pagination := {| pageIndex := 0; pageSize := 10 |};
     columnFilters := []; columnOrder := []; rowSelection := [] |}.

Definition setGlobalFilter (g : option string) (s : State) : State :=
  {| globalFilter := g; sorting := sorting s; pagination := pagination s;
     columnFilters := columnFilters s; columnOrder := columnOrder s;
     rowSelection := rowSelection s |}.

Definition setColumnFilters (f : list ColumnFilter) (s : State) : State :=
  {| globalFilter := globalFilter s; sorting := sorting s;
     pagination := pagination s; columnFilters := f;
     columnOrder := columnOrder s; rowSelection := rowSelection s |}.

Definition setPagination (p : PaginationState) (s : State) : State :=
  {| globalFilter := globalFilter s; sorting := sorting s;
     pagination := p; columnFilters := columnFilters s;
     columnOrder := columnOrder s; rowSelection := rowSelection s |}.

Definition nameIsJohn : list ColumnFilter :=
  [{| filter_id := "name"; value := JString "John" |}].

Definition noEncoders : Encoders.t :=
  {| Encoders.globalFilter := None; Encoders.sorting := None;
     Encoders.pagination := None; Encoders.columnFilters := None;
     Encoders.columnOrder := None; Encoders.rowSelection := None |}.

Definition withEncoders (e : Encoders.t) : option Options :=
  Some {| paramNames := None; defaultValues := None; encoders := Some e |}.

(** A global-filter encoder that throws. *)
Definition throwingEncoder : option Options :=
  withEncoders
    {| Encoders.globalFilter := Some (fun _ => Throw (Error "boom"));
       Encoders.sorting := None; Encoders.pagination := None;
       Encoders.columnFilters := None; Encoders.columnOrder := None;
       Encoders.rowSelection := None |}.

(** A global-filter encoder that writes under a key of its own. *)
Definition searchEncoder : option Options :=
  withEncoders
    {| Encoders.globalFilter :=
         Some (fun g => Normal {[ "q" := from_option QString QUndefined g ]});
       Encoders.sorting := None; Encoders.pagination := None;
       Encoders.columnFilters := None; Encoders.columnOrder := None;
       Encoders.rowSelection := None |}.

(** A sorting encoder that writes under the name of the global filter. *)
Definition sortingWritesGlobalFilter : option Options :=
  withEncoders
    {| Encoders.globalFilter := None;
       Encoders.sorting :=
         Some (fun _ => Normal {[ "globalFilter" := QString "hijacked" ]});
       Encoders.pagination := None; Encoders.columnFilters := None;
       Encoders.columnOrder := None; Encoders.rowSelection := None |}.

(** A global-filter encoder that writes under the name of the sorting. *)
Definition globalFilterWritesSorting : option Options :=
  withEncoders
    {| Encoders.globalFilter :=
         Some (fun _ => Normal {[ "sorting" := QString "x" ]});
       Encoders.sorting := None; Encoders.pagination := None;
       Encoders.columnFilters := None; Encoders.columnOrder := None;
       Encoders.rowSelection := None |}.


Definition setSorting (l : list ColumnSort) (s : State) : State :=
  {| globalFilter := globalFilter s; sorting := l;
     pagination := pagination s; columnFilters := columnFilters s;
     columnOrder := columnOrder s; rowSelection := rowSelection s |}.

Definition setRowSelection (r : RowSelectionState) (s : State) : State :=
  {| globalFilter := globalFilter s; sorting := sorting s;
     pagination := pagination s; columnFilters := columnFilters s;
     columnOrder := columnOrder s; rowSelection := r |}.

Definition sortedByName : list ColumnSort :=
  [{| sort_id := "name"; desc := true |}].

(** The states and queries of the tests of [onStateChange.test.ts]. *)
Definition filteredByInitial : State :=
  setGlobalFilter (Some "initial") initialState.

Definition filteredByTestAndJohn : State :=
  setColumnFilters nameIsJohn (setGlobalFilter (Some "test") initialState).

Definition queryInitial : Query := {[ "globalFilter" := QString "initial" ]}.

Definition queryTestAndJohn : Query :=
  {[ "globalFilter" := QString "test";
     "columnFilters" := QString "name.%22John%22" ]}.

(** A state that differs from the initial one in every slice. *)
Definition busyState : State :=
  {| globalFilter := Some "test";
     sorting := [{| sort_id := "name"; desc := true |};
                 {| sort_id := "age"; desc := false |}];
     pagination := {| pageIndex := 2; pageSize := 20 |};
     columnFilters := [{| filter_id := "name"; value := JString "John" |};
                       {| filter_id := "age"; value := JNumber 42 |}];
     columnOrder := ["name"; "age"];
     rowSelection := [("1", true); ("3", true)] |}.

End Example.

(** * Further vocabulary: the navigated query as a function of the trace *)

#[global] Instance Op_eq_dec : EqDecision Op.
Proof. solve_decision. Defined.

(** The value a mutation writes under key [k], if it writes that key. *)
Definition written (k : string) (op : Op) : option QueryValue :=
  match op with
  | OpSet key v => if decide (key = k) then Some v else None
  | OpAssign source => source !! k
  | OpDelete _ | OpNavigate _ => None
  end.

(** The value of the last mutation that writes [k]. *)
Definition lastWrite (k : string) (ops : list Op) : option QueryValue :=
  list.last (omap (written k) ops).

(** A query value as an entry of the navigated query: an undefined value
    is no entry. *)
Definition entry (v : QueryValue) : option QueryValue :=
  if isDefined v then Some v else None.

(** The router once the navigation has taken effect: its query is the one
    navigated to. *)
Definition navigated (router : Router.t) (h : Locals) : Router.t :=
  {| Router.query := cleanQuery h; Router.pathname := Router.pathname router |}.

(** The query holds, under the name of every parameter, what the default
    codecs yield for the state [s], and nothing where they yield
    [undefined]. *)
Definition inSync {codec : DefaultEncoders} (options : option Options)
    (q : Query) (s : State) : Prop :=
  ∀ p, stripUndefined q !! paramName options p
       = entry (defaultEncoded options s p).

(** No slice has a caller-supplied encoder. *)
Definition defaultCodecsOnly (options : option Options) : Prop :=
  options ▹ encoders ▹ Encoders.globalFilter = None
  ∧ options ▹ encoders ▹ Encoders.sorting = None
  ∧ options ▹ encoders ▹ Encoders.pagination = None
  ∧ options ▹ encoders ▹ Encoders.columnFilters = None
  ∧ options ▹ encoders ▹ Encoders.columnOrder = None
  ∧ options ▹ encoders ▹ Encoders.rowSelection = None.

(** The seven parameter names are pairwise distinct. *)
Definition distinctNames (options : option Options) : Prop :=
  NoDup (paramName options <$> allParams).

(** * Further vocabulary: reading [JSON.stringify] back *)

(** The character that a quoted character of a JSON string stands for,
    and the text after it; [None] at the closing quote and on what
    [JSON.stringify] never writes. *)
Definition JSON_unquote_char (s : string) : option (ascii * string) :=
  match s with
  | EmptyString => None
  | String c rest =>
      if decide (c = DQUOTE) then None
      else if decide (c = BACKSLASH) then
        match rest with
        | String e rest' =>
            if decide (e = DQUOTE) then Some (DQUOTE, rest')
            else if decide (e = BACKSLASH) then Some (BACKSLASH, rest')
            else if decide (e = "b"%char) then Some (ascii_of_N 8, rest')
            else if decide (e = "t"%char) then Some (ascii_of_N 9, rest')
            else if decide (e = "n"%char) then Some (ascii_of_N 10, rest')
            else if decide (e = "f"%char) then Some (ascii_of_N 12, rest')
            else if decide (e = "r"%char) then Some (ascii_of_N 13, rest')
            else if decide (e = "u"%char) then
              match rest' with
              | String "0" (String "0" (String hi (String lo rest''))) =>
                  match hexValue hi, hexValue lo with
                  | Some a, Some b => Some (ascii_of_N (16 * a + b), rest'')
                  | _, _ => None
                  end
              | _ => None
              end
            else None
        | EmptyString => None
        end
      else Some (c, rest)
  end.

Definition isDigit (c : ascii) : bool :=
  let n := N_of_ascii c in ((48 <=? n) && (n <=? 57))%N.

(** The text does not go on with a digit. *)
Definition digitFree (r : string) : Prop :=
  match r with
  | EmptyString => True
  | String c _ => isDigit c = false
  end.

(** The text starts with a comma or with the closing bracket [close]: it
    may follow an element of an array or a member of an object. *)
Definition afterItem (close : ascii) (r : string) : Prop :=
  ∃ r', r = String ","%char r' ∨ r = String close r'.

(** The characters the JSON text of a filter value can start with. *)
Definition valueHead (v : FilterValue) (c : ascii) : bool :=
  match v with
  | JNull => bool_decide (c = "n"%char)
  | JBool true => bool_decide (c = "t"%char)
  | JBool false => bool_decide (c = "f"%char)
  | JNumber _ => bool_decide (c = "-"%char) || isDigit c
  | JString _ => bool_decide (c = DQUOTE)
  | JArray _ => bool_decide (c = "["%char)
  end.

(** Two filter values of the same kind. *)
Definition sameKind (v w : FilterValue) : Prop :=
  match v, w with
  | JNull, JNull => True
  | JBool a, JBool b => a = b
  | JNumber _, JNumber _ => True
  | JString _, JString _ => True
  | JArray _, JArray _ => True
  | _, _ => False
  end.

(** The JSON text of one entry of the sorting, of the column filters and
    of the row selection. *)
Definition JSON_stringify_sort (s : ColumnSort) : string :=
  JSON_object [JSON_member "id" (JSON_stringify_string (sort_id s));
               JSON_member "desc" (JSON_stringify_bool (desc s))].

Definition JSON_stringify_filter (f : ColumnFilter) : string :=
  JSON_object [JSON_member "id" (JSON_stringify_string (filter_id f));
               JSON_member "value" (JSON_stringify_value (value f))].

Definition JSON_stringify_row (kv : string * bool) : string :=
  JSON_member (fst kv) (JSON_stringify_bool (snd kv)).

(** * Lemmas on the updater *)

Lemma runOps_app ops1 ops2 h :
  runOps (ops1 ++ ops2) h = runOps ops2 (runOps ops1 h).
Proof. apply foldl_app. Qed.

Section UpdaterLemmas.
Context {codec : DefaultEncoders} {serializer : QuerySerializer}.
Variables (router : Router.t) (options : option Options).
Variables (oldState newState : State).

Lemma globalFilterStep_ops h :
  globalFilterStep options (paramName options PGlobalFilter)
    oldState newState h
  = stepResult (sliceOps options oldState newState GlobalFilter) h.
Proof.
  unfold globalFilterStep.
  step_ops (options ▹ encoders ▹ Encoders.globalFilter).
Qed.

Lemma sortingStep_ops h :
  sortingStep options (paramName options PSorting) oldState newState h
  = stepResult (sliceOps options oldState newState Sorting) h.
Proof.
  unfold sortingStep. step_ops (options ▹ encoders ▹ Encoders.sorting).
Qed.

Lemma paginationStep_ops h :
  paginationStep options (paramName options PPageIndex)
    (paramName options PPageSize) oldState newState h
  = stepResult (sliceOps options oldState newState Pagination) h.
Proof.
  unfold paginationStep.
  step_ops (options ▹ encoders ▹ Encoders.pagination).
Qed.

Lemma columnFiltersStep_ops h :
  columnFiltersStep options (paramName options PColumnFilters)
    oldState newState h
  = stepResult (sliceOps options oldState newState ColumnFilters) h.
Proof.
  unfold columnFiltersStep.
  step_ops (options ▹ encoders ▹ Encoders.columnFilters).
Qed.

Lemma columnOrderStep_ops h :
  columnOrderStep options (paramName options PColumnOrder)
    oldState newState h
  = stepResult (sliceOps options oldState newState ColumnOrder) h.
Proof.
  unfold columnOrderStep.
  step_ops (options ▹ encoders ▹ Encoders.columnOrder).
Qed.

Lemma rowSelectionStep_ops h :
  rowSelectionStep options (paramName options PRowSelection)
    oldState newState h
  = stepResult (sliceOps options oldState newState RowSelection) h.
Proof.
  unfold rowSelectionStep.
  step_ops (options ▹ encoders ▹ Encoders.rowSelection).
Qed.

Lemma thrownBy_sliceOps sl :
  thrownBy options oldState newState sl
  = match sliceOps options oldState newState sl with
    | Throw e => Some e
    | Normal _ => None
    end.
Proof.
  unfold thrownBy, sliceOps. destruct (changed _ _ _); [|done].
  by destruct (overrideResult _ _ _) as [[?|?]|].
Qed.

Lemma bind_stepResult (m : M unit) c (k : M unit) h :
  m h = stepResult c h →
  (m ≫= λ _, k) h
  = match c with
    | Normal ops => k (runOps ops h)
    | Throw e => (Throw e, h)
    end.
Proof. intros Hm. unfold mbind, M_bind. rewrite Hm. by destruct c. Qed.

(** The updater, as the mutations of its slices followed by one
    navigation; an exception of an encoder ends it before that. *)
Lemma update_run :
  run (update router options oldState newState)
  = match firstThrow options oldState newState with
    | None =>
        let h := mergedLocals router options oldState newState in
        (Normal tt, applyOp (OpNavigate (navigateUrl router (cleanQuery h))) h)
    | Some e =>
        (Throw e, mergedLocals router options oldState newState)
    end.
Proof.
  unfold mergedLocals, plannedOps, firstThrow, allSlices.
  cbn [fmap list_fmap omap list_omap].
  rewrite !thrownBy_sliceOps.
  unfold run, update.
  unfold mbind at 1, M_bind at 1. cbn [declareQuery].
  unfold mbind at 1, M_bind at 1. cbn [declareUpdates query trace].
  fold (paramName options PGlobalFilter) (paramName options PSorting)
    (paramName options PPageIndex) (paramName options PPageSize)
    (paramName options PColumnFilters) (paramName options PColumnOrder)
    (paramName options PRowSelection).
  fold (initialLocals router).
  generalize (initialLocals router) as h0. intros h0.
  rewrite (bind_stepResult _ _ _ _ (globalFilterStep_ops _)).
  destruct (sliceOps _ _ _ GlobalFilter) as [o1|]; [|done].
  rewrite (bind_stepResult _ _ _ _ (sortingStep_ops _)).
  destruct (sliceOps _ _ _ Sorting) as [o2|]; [|until_throw].
  rewrite (bind_stepResult _ _ _ _ (paginationStep_ops _)).
  destruct (sliceOps _ _ _ Pagination) as [o3|]; [|until_throw].
  rewrite (bind_stepResult _ _ _ _ (columnFiltersStep_ops _)).
  destruct (sliceOps _ _ _ ColumnFilters) as [o4|]; [|until_throw].
  rewrite (bind_stepResult _ _ _ _ (columnOrderStep_ops _)).
  destruct (sliceOps _ _ _ ColumnOrder) as [o5|]; [|until_throw].
  rewrite (bind_stepResult _ _ _ _ (rowSelectionStep_ops _)).
  destruct (sliceOps _ _ _ RowSelection) as [o6|]; until_throw.
Qed.
End UpdaterLemmas.

(** ** What a list of mutations does to one key *)

Lemma trace_runOps ops h : trace (runOps ops h) = trace h ++ ops.
Proof.
  revert h. induction ops as [|op ops IH]; intros h; simpl.
  - by rewrite app_nil_r.
  - rewrite IH. destruct op; simpl; by rewrite <- app_assoc.
Qed.

Lemma updates_runOps_untouched k ops h :
  Forall (fun op => ¬ opWrites k op) ops →
  updates (runOps ops h) !! k = updates h !! k.
Proof.
  revert h. induction ops as [|op ops IH]; intros h Hops; [done|].
  inversion Hops as [|? ? Hop Hrest]; subst. simpl. rewrite IH by done.
  destruct op as [key v|key|source|url]; simpl in *; try done.
  - by rewrite lookup_insert_ne.
  - rewrite lookup_union_r; [done|].
    destruct (source !! k) eqn:E; [|done]. destruct Hop. eauto.
Qed.

Lemma query_runOps_untouched k ops h :
  OpDelete k ∉ ops →
  query (runOps ops h) !! k = query h !! k.
Proof.
  revert h. induction ops as [|op ops IH]; intros h Hops; [done|].
  apply not_elem_of_cons in Hops as [Hop Hrest]. simpl. rewrite IH by done.
  destruct op as [key v|key|source|url]; simpl; try done.
  rewrite lookup_delete_ne; [done|]. congruence.
Qed.

Lemma query_runOps_subseteq ops h : query (runOps ops h) ⊆ query h.
Proof.
  revert h. induction ops as [|op ops IH]; intros h; [done|].
  simpl. etrans; [apply IH|].
  destruct op; simpl; try done. apply delete_subseteq.
Qed.

Lemma query_runOps_deleted k ops h :
  OpDelete k ∈ ops → query (runOps ops h) !! k = None.
Proof.
  revert h. induction ops as [|op ops IH]; intros h Hin.
  - by apply elem_of_nil in Hin.
  - apply elem_of_cons in Hin as [<-|Hin]; [|by apply IH].
    simpl. eapply lookup_weaken_None; [|apply query_runOps_subseteq].
    simpl. apply lookup_delete_eq.
Qed.

Lemma navigations_app tr1 tr2 :
  navigations (tr1 ++ tr2) = navigations tr1 ++ navigations tr2.
Proof. apply omap_app. Qed.

Lemma lookup_stripUndefined (q : Query) k :
  stripUndefined q !! k
  = match q !! k with
    | Some QUndefined => None
    | other => other
    end.
Proof.
  unfold stripUndefined. destruct (q !! k) as [v|] eqn:E.
  - destruct (decide (v = QUndefined)) as [->|Hv].
    + apply map_lookup_filter_None. right. intros v' ?. simpl. naive_solver.
    + transitivity (Some v); [|by destruct v].
      by apply map_lookup_filter_Some.
  - apply map_lookup_filter_None. by left.
Qed.

Lemma lookup_finalQuery h k :
  finalQuery h !! k
  = match updates h !! k with
    | Some v => Some v
    | None => query h !! k
    end.
Proof.
  unfold finalQuery. rewrite lookup_union.
  destruct (updates h !! k), (query h !! k); done.
Qed.

(** ** Where the planned mutations come from *)

Lemma elem_of_opsUntilThrow op steps :
  op ∈ opsUntilThrow steps → ∃ ops, Normal ops ∈ steps ∧ op ∈ ops.
Proof.
  induction steps as [|[ops|e] steps IH]; simpl; intros Hin.
  - by apply elem_of_nil in Hin.
  - apply elem_of_app in Hin as [Hin|Hin].
    + exists ops. split; [left|done].
    + destruct (IH Hin) as (ops' & ? & ?). exists ops'. split; [by right|done].
  - by apply elem_of_nil in Hin.
Qed.

Lemma opsUntilThrow_complete op ops steps :
  (∀ e, Throw e ∉ steps) → Normal ops ∈ steps → op ∈ ops →
  op ∈ opsUntilThrow steps.
Proof.
  induction steps as [|[ops'|e] steps IH]; simpl; intros Hno Hin Hop.
  - by apply elem_of_nil in Hin.
  - apply elem_of_app. apply elem_of_cons in Hin as [Heq|Hin].
    + left. congruence.
    + right. apply IH; [|done..]. intros e He. apply (Hno e). by right.
  - destruct (Hno e). left.
Qed.

Lemma slice_in_allSlices sl : sl ∈ allSlices.
Proof. apply list_elem_of_In. destruct sl; simpl; tauto. Qed.

Lemma sliceOf_paramsOf p sl : p ∈ paramsOf sl → sliceOf p = sl.
Proof.
  intros Hin. apply list_elem_of_In in Hin.
  destruct sl; simpl in Hin; intuition (subst; done).
Qed.

Lemma paramsOf_sliceOf p : p ∈ paramsOf (sliceOf p).
Proof. apply list_elem_of_In. destruct p; simpl; tauto. Qed.

Section PlannedOps.
Context {codec : DefaultEncoders}.
Variables (options : option Options) (oldState newState : State).

Lemma firstThrow_None :
  firstThrow options oldState newState = None ↔
  ∀ sl, thrownBy options oldState newState sl = None.
Proof.
  unfold firstThrow. split.
  - intros Hhead sl.
    destruct (thrownBy options oldState newState sl) as [e|] eqn:E; [|done].
    assert (e ∈ omap (thrownBy options oldState newState) allSlices) as Hin.
    { apply list_elem_of_omap. exists sl. split; [apply slice_in_allSlices|done]. }
    destruct (omap _ allSlices); [by apply elem_of_nil in Hin|done].
  - intros Hall. unfold allSlices. simpl. by rewrite !Hall.
Qed.

Lemma firstThrow_Some e :
  firstThrow options oldState newState = Some e →
  ∃ sl, thrownBy options oldState newState sl = Some e.
Proof.
  unfold firstThrow. intros Hhead.
  assert (e ∈ omap (thrownBy options oldState newState) allSlices) as Hin.
  { destruct (omap _ allSlices); simplify_eq/=. left. }
  apply list_elem_of_omap in Hin as (sl & _ & ?). eauto.
Qed.

Lemma thrownBy_Some sl e :
  thrownBy options oldState newState sl = Some e ↔
  changed sl oldState newState = true ∧
  overrideResult options newState sl = Some (Throw e).
Proof.
  unfold thrownBy. destruct (changed _ _ _); [|by split; [|intros []]].
  destruct (overrideResult _ _ _) as [[?|?]|];
    (split; [intros [= <-]|intros [_ [= <-]]]; done).
Qed.

(** Every planned mutation is the assignment of a slice's own encoder or
    the write of a default codec. *)
Lemma elem_of_sliceOps sl ops op :
  sliceOps options oldState newState sl = Normal ops → op ∈ ops →
  changed sl oldState newState = true ∧
  ((∃ source, overrideResult options newState sl = Some (Normal source)
              ∧ op = OpAssign source)
   ∨ (overrideResult options newState sl = None
      ∧ ∃ p, sliceOf p = sl
             ∧ op = writeOp (paramName options p)
                            (defaultEncoded options newState p))).
Proof.
  unfold sliceOps. destruct (changed _ _ _).
  - destruct (overrideResult _ _ _) as [[source|e]|]; intros Heq Hin;
      simplify_eq.
    + apply list_elem_of_singleton in Hin as ->. eauto.
    + apply list_elem_of_fmap in Hin as (p & -> & Hp).
      apply sliceOf_paramsOf in Hp. eauto 10.
  - intros [= <-] Hin. by apply elem_of_nil in Hin.
Qed.

Lemma elem_of_plannedOps op :
  op ∈ plannedOps options oldState newState →
  ∃ sl ops, sliceOps options oldState newState sl = Normal ops ∧ op ∈ ops.
Proof.
  intros Hin. apply elem_of_opsUntilThrow in Hin as (ops & Hin & Hop).
  apply list_elem_of_fmap in Hin as (sl & Heq & _). eauto.
Qed.

Lemma plannedOps_complete sl ops op :
  firstThrow options oldState newState = None →
  sliceOps options oldState newState sl = Normal ops → op ∈ ops →
  op ∈ plannedOps options oldState newState.
Proof.
  intros Hno Hsl Hop. apply (opsUntilThrow_complete op ops); [| |done].
  - intros e He. apply list_elem_of_fmap in He as (sl' & Heq & _).
    rewrite firstThrow_None in Hno. specialize (Hno sl').
    rewrite thrownBy_sliceOps, <- Heq in Hno. done.
  - apply list_elem_of_fmap. exists sl. split; [done|apply slice_in_allSlices].
Qed.

(** A planned mutation that touches [k] belongs to a parameter that
    claims [k]. *)
Lemma touch_claimed op k :
  op ∈ plannedOps options oldState newState → opTouches k op →
  ∃ p, claims options oldState newState p k
       ∧ (overrideResult options newState (sliceOf p) = None →
          op = writeOp k (defaultEncoded options newState p)).
Proof.
  intros Hin Htouch.
  destruct (elem_of_plannedOps _ Hin) as (sl & ops & Hsl & Hop).
  destruct (elem_of_sliceOps _ _ _ Hsl Hop)
    as [Hch [(source & Hov & ->)|(Hov & p & <- & ->)]].
  - assert (is_Some (source !! k)) as Hk.
    { destruct Htouch as [?|?]; [done|discriminate]. }
    destruct (paramsOf sl) as [|p ps] eqn:Hps; [by destruct sl|].
    assert (sliceOf p = sl) as <-.
    { apply sliceOf_paramsOf. rewrite Hps. left. }
    exists p. split; [|by rewrite Hov].
    split; [done|]. by rewrite Hov.
  - assert (paramName options p = k) as <-.
    { unfold opTouches, writeOp in Htouch. destruct (isDefined _);
        destruct Htouch as [Hw|Hd]; simpl in *; by simplify_eq. }
    exists p. split; [|done]. split; [done|]. by rewrite Hov.
Qed.

Lemma unclaimed_untouched k :
  (∀ p, ¬ claims options oldState newState p k) →
  Forall (fun op => ¬ opTouches k op) (plannedOps options oldState newState).
Proof.
  intros Hno. apply list.Forall_forall. intros op Hin Htouch.
  destruct (touch_claimed _ _ Hin Htouch) as (p & Hp & _). by apply (Hno p).
Qed.

Lemma plannedOps_mutations :
  navigations (plannedOps options oldState newState) = [].
Proof.
  assert (∀ ops : list Op, (∀ op, op ∈ ops → isMutation op = true) →
            navigations ops = []) as Hnav.
  { induction ops as [|op ops IH]; [done|]. intros Hall.
    unfold navigations in *. simpl.
    pose proof (Hall op ltac:(left)) as Hop. destruct op; try done;
      apply IH; intros; apply Hall; by right. }
  apply Hnav. intros op Hin.
  destruct (elem_of_plannedOps _ Hin) as (sl & ops & Hsl & Hop).
  destruct (elem_of_sliceOps _ _ _ Hsl Hop)
    as [_ [(source & _ & ->)|(_ & p & _ & ->)]]; [done|].
  unfold writeOp. by destruct (isDefined _).
Qed.
End PlannedOps.

(** ** The run of the updater *)

Lemma sameSlice_unchanged sl a b : sameSlice sl b a → changed sl a b = false.
Proof.
  destruct sl; simpl; intros ->; rewrite ?orb_false_iff;
    repeat split; apply bool_decide_eq_false_2; intros Hne; by apply Hne.
Qed.

Lemma unchanged_refl sl s : changed sl s s = false.
Proof. apply sameSlice_unchanged. by destruct sl. Qed.

Section UpdaterRun.
Context {codec : DefaultEncoders} {serializer : QuerySerializer}.
Variables (router : Router.t) (options : option Options).
Variables (oldState newState : State).

Lemma encodersReturn_firstThrow :
  encodersReturn options oldState newState ↔
  firstThrow options oldState newState = None.
Proof.
  rewrite firstThrow_None. unfold encodersReturn. split.
  - intros Hret sl.
    destruct (thrownBy options oldState newState sl) as [e|] eqn:E; [|done].
    apply thrownBy_Some in E as [Hch Hov]. by destruct (Hret sl e).
  - intros Hnone sl e Hch Hov.
    assert (thrownBy options oldState newState sl = Some e) as E
      by by apply thrownBy_Some.
    by rewrite Hnone in E.
Qed.

Lemma trace_mergedLocals :
  trace (mergedLocals router options oldState newState)
  = plannedOps options oldState newState.
Proof. unfold mergedLocals. by rewrite trace_runOps. Qed.

(** When no encoder throws, the updater returns, and its trace is the
    planned mutations followed by one navigation. *)
Lemma update_completes :
  encodersReturn options oldState newState →
  ∃ h, run (update router options oldState newState) = (Normal tt, h)
       ∧ query h = query (mergedLocals router options oldState newState)
       ∧ updates h = updates (mergedLocals router options oldState newState)
       ∧ trace h = plannedOps options oldState newState
                   ++ [OpNavigate (navigateUrl router (cleanQuery h))].
Proof.
  intros Hret. apply encodersReturn_firstThrow in Hret.
  rewrite update_run, Hret. eexists. split; [done|].
  simpl. by rewrite trace_mergedLocals.
Qed.

Lemma navigations_completed h :
  trace h = plannedOps options oldState newState
            ++ [OpNavigate (navigateUrl router (cleanQuery h))] →
  navigations (trace h) = [navigateUrl router (cleanQuery h)].
Proof.
  intros ->. by rewrite navigations_app, plannedOps_mutations.
Qed.

(** A key no parameter claims keeps its entry. *)
Lemma unclaimed_preserved h k :
  query h = query (mergedLocals router options oldState newState) →
  updates h = updates (mergedLocals router options oldState newState) →
  (∀ p, ¬ claims options oldState newState p k) →
  cleanQuery h !! k = stripUndefined (Router.query router) !! k.
Proof.
  intros Hq Hu Hno. apply unclaimed_untouched in Hno.
  unfold cleanQuery. rewrite !lookup_stripUndefined, lookup_finalQuery.
  rewrite Hq, Hu. unfold mergedLocals.
  rewrite updates_runOps_untouched, query_runOps_untouched; simpl.
  - by rewrite lookup_empty.
  - intros Hin. rewrite list.Forall_forall in Hno.
    apply (Hno _ Hin). by right.
  - eapply list.Forall_impl; [apply Hno|].
    intros op Hop Hw. apply Hop. by left.
Qed.
End UpdaterRun.

Section UpdaterKeys.
Context {codec : DefaultEncoders} {serializer : QuerySerializer}.
Variables (router : Router.t) (options : option Options).
Variables (oldState newState : State).


(** A parameter whose default encoding is undefined, and whose name no
    other parameter claims, is absent from the merged query. *)
Lemma undefined_deleted h p :
  query h = query (mergedLocals router options oldState newState) →
  updates h = updates (mergedLocals router options oldState newState) →
  firstThrow options oldState newState = None →
  changed (sliceOf p) oldState newState = true →
  overrideResult options newState (sliceOf p) = None →
  defaultEncoded options newState p = QUndefined →
  (∀ p', p' ≠ p →
         ¬ claims options oldState newState p' (paramName options p)) →
  OpDelete (paramName options p) ∈ plannedOps options oldState newState
  ∧ cleanQuery h !! paramName options p = None.
Proof.
  intros Hq Hu Hret Hch Hov Henc Hothers.
  assert (OpDelete (paramName options p)
          ∈ plannedOps options oldState newState) as Hdel.
  { eapply (plannedOps_complete _ _ _ (sliceOf p)); [done| |].
    - unfold sliceOps. by rewrite Hch, Hov.
    - apply list_elem_of_fmap. exists p. split; [|apply paramsOf_sliceOf].
      by rewrite Henc. }
  split; [done|].
  unfold cleanQuery. rewrite lookup_stripUndefined, lookup_finalQuery.
  rewrite Hq, Hu. unfold mergedLocals.
  rewrite updates_runOps_untouched, query_runOps_deleted; simpl; [done..|].
  apply list.Forall_forall. intros op Hin Hw.
  destruct (touch_claimed _ _ _ _ _ Hin (or_introl Hw)) as (p' & Hp' & Hop).
  destruct (decide (p' = p)) as [->|Hne]; [|by apply (Hothers p')].
  rewrite (Hop Hov), Henc in Hw. done.
Qed.
End UpdaterKeys.
(** * Lemmas on the codecs *)

Lemma parseN_String_of_N n : parseN (String_of_N n) = Some n.
Proof.
  unfold parseN, String_of_N. rewrite NilZero.usu.
  - simpl. by rewrite DecimalN.Unsigned.of_to.
  - destruct n; [done|]. apply DecimalPos.Unsigned.to_uint_nonnil.
Qed.

Section CodecLemmas.
Context {parameters : CodecParameters}.

Lemma decodePagination_encodePagination value defaultValue :
  (0 < pageSize value)%N →
  Codec.decodePagination (Codec.encodePagination value defaultValue)
    defaultValue
  = value.
Proof.
  intros Hsize. unfold Codec.decodePagination, Codec.encodePagination.
  destruct value as [index size]. simpl in *. f_equal.
  - destruct (decide (index = _)) as [->|_]; [done|].
    rewrite parseN_String_of_N.
    destruct (decide (index + 1 = 0)%N); lia.
  - destruct (decide (size = _)) as [->|_]; [done|].
    rewrite parseN_String_of_N.
    destruct (decide (size = 0)%N); [lia|done].
Qed.

Lemma encodePagination_written value defaultValue :
  let d := default initialPagination defaultValue in
  Codec.encodePagination value defaultValue
  = {| EncodedPagination.pageIndex :=
         if decide (pageIndex value = pageIndex d) then QUndefined
         else QString (String_of_N (pageIndex value + 1));
       EncodedPagination.pageSize :=
         if decide (pageSize value = pageSize d) then QUndefined
         else QString (String_of_N (pageSize value)) |}.
Proof. reflexivity. Qed.

End CodecLemmas.

(** * Lemmas on the debounce layer *)

Section DebounceLemmas.
Import Debounce.
Variable delays : Slice → N.
Variable sl : Slice.

Lemma mergeSlices_same pick s : mergeSlices pick s s = s.
Proof.
  destruct s. unfold mergeSlices. simpl. f_equal; by destruct (pick _).
Qed.

Lemma changed_mergeSlices pick a b sl' :
  changed sl' (mergeSlices pick a b) b
  = if pick sl' then changed sl' a b else false.
Proof.
  destruct sl'; unfold mergeSlices; simpl; destruct (pick _);
    rewrite ?orb_false_iff; repeat split; try done;
    apply bool_decide_eq_false_2; intros Hne; by apply Hne.
Qed.

(** A change of the slice [sl] alone, debounced: no call, and the timer of
    [sl] is restarted with the snapshots of this change. *)
Lemma onStateChange_restarts oldState newState s :
  (0 < delays sl)%N →
  changed sl oldState newState = true →
  (∀ sl', sl' ≠ sl → changed sl' oldState newState = false) →
  (∀ sl', sl' ≠ sl → timers s sl' = None) →
  (onStateChange delays oldState newState s).2 = []
  ∧ clock (onStateChange delays oldState newState s).1 = clock s
  ∧ observed (onStateChange delays oldState newState s).1 = newState
  ∧ onlyTimer sl (onStateChange delays oldState newState s).1
      {| due := clock s + delays sl; oldSnapshot := oldState;
         newSnapshot := newState |}.
Proof.
  intros Hdelay Hch Hothers Hnone. unfold onStateChange.
  cbn [fst snd clock observed].
  split; [|split; [done|split; [done|]]].
  - assert (existsb
              (fun sl' => changed sl' oldState newState
                          && bool_decide (delays sl' = 0%N)) allSlices
            = false) as ->; [|done].
    apply not_true_is_false. intros Hex.
    apply existsb_exists in Hex as (sl' & _ & Hsl').
    apply andb_true_iff in Hsl' as [Hc Hz]. apply bool_decide_eq_true in Hz.
    destruct (decide (sl' = sl)) as [->|Hne]; [lia|].
    by rewrite Hothers in Hc.
  - intros sl'. cbn [timers]. destruct (decide (sl' = sl)) as [->|Hne].
    + by rewrite Hch, bool_decide_eq_true_2.
    + rewrite Hothers by done. simpl. by apply Hnone.
Qed.

Lemma nextDue_onlyTimer s p : onlyTimer sl s p → nextDue s = Some (due p).
Proof.
  intros Honly. unfold nextDue, allSlices. simpl. rewrite !Honly.
  by destruct sl.
Qed.

Lemma nextDue_none s : (∀ sl', timers s sl' = None) → nextDue s = None.
Proof.
  intros Hnone. unfold nextDue, allSlices. simpl. by rewrite !Hnone.
Qed.

(** Before the deadline nothing happens (no leading edge). *)
Lemma advance_before_due ms s p :
  onlyTimer sl s p → (clock s + ms < due p)%N →
  advance ms s
  = ({| clock := clock s + ms; timers := timers s; observed := observed s |},
     []).
Proof.
  intros Honly Hearly. unfold advance, allSlices. simpl.
  rewrite (nextDue_onlyTimer _ _ Honly).
  by rewrite (proj2 (N.leb_gt _ _) Hearly).
Qed.

Lemma advanceTo_fire rounds t s d :
  nextDue s = Some d → (d ≤ t)%N →
  advanceTo (S rounds) t s
  = ((advanceTo rounds t (fire d s).1).1,
     (fire d s).2 ++ (advanceTo rounds t (fire d s).1).2).
Proof.
  intros Hnext Hle. cbn [advanceTo].
  rewrite Hnext, (proj2 (N.leb_le _ _) Hle).
  destruct (fire d s) as [s' calls]. cbn [fst snd].
  by destruct (advanceTo rounds t s').
Qed.

Lemma advanceTo_idle rounds t s :
  nextDue s = None →
  advanceTo rounds t s
  = ({| clock := t; timers := timers s; observed := observed s |}, []).
Proof. intros Hnext. destruct rounds; cbn [advanceTo]; by rewrite ?Hnext. Qed.

(** At the deadline the one timer expires: one call of the batched
    updater, with the snapshots of the timer, and no timer is left. *)
Lemma advance_past_due ms s p :
  onlyTimer sl s p → (due p ≤ clock s + ms)%N →
  (advance ms s).2
  = [(mergeSlices (fun sl' => bool_decide (sl' = sl)) (oldSnapshot p)
        (observed s),
      mergeSlices (fun sl' => bool_decide (sl' = sl)) (newSnapshot p)
        (observed s))]
  ∧ ∀ sl', timers (advance ms s).1 sl' = None.
Proof.
  intros Honly Hlate. unfold advance.
  change (length allSlices) with 6%nat.
  rewrite (advanceTo_fire _ _ _ _ (nextDue_onlyTimer _ _ Honly) Hlate).
  assert (∀ sl', timers (fire (due p) s).1 sl' = None) as Hnone.
  { intros sl'. unfold fire, dueAt. cbn [fst timers]. rewrite !Honly.
    destruct (decide (sl' = sl)); [|done]. by rewrite bool_decide_eq_true_2. }
  rewrite (advanceTo_idle _ _ _ (nextDue_none _ Hnone)).
  cbn [fst snd timers]. split; [|exact Hnone].
  rewrite app_nil_r. unfold fire, allSlices. cbn [snd foldr].
  rewrite !Honly. destruct sl; simpl; by rewrite bool_decide_eq_true_2.
Qed.

End DebounceLemmas.

(** ** The calls that carry one slice, among any timers *)

Lemma sameSlice_refl sl a : sameSlice sl a a.
Proof. by destruct sl. Qed.

Lemma sameSlice_trans sl a b c :
  sameSlice sl a b → sameSlice sl b c → sameSlice sl a c.
Proof. destruct sl; simpl; congruence. Qed.

Lemma changed_sameSlice sl a a' b b' :
  sameSlice sl a a' → sameSlice sl b b' →
  changed sl a b = changed sl a' b'.
Proof. destruct sl; simpl; by intros -> ->. Qed.

Lemma sameSlice_mergeSlices sl pick a b :
  sameSlice sl (Debounce.mergeSlices pick a b) (if pick sl then a else b).
Proof. destruct sl; simpl; by destruct (pick _). Qed.

Section DebounceTimers.
Import Debounce.
Variable delays : Slice → N.
Variable sl : Slice.

Lemma callsFor_app calls calls' :
  callsFor sl (calls ++ calls') = callsFor sl calls ++ callsFor sl calls'.
Proof. apply list.filter_app. Qed.

Lemma callsFor_unchanged o n :
  changed sl o n = false → callsFor sl [(o, n)] = [].
Proof.
  intros Hch. unfold callsFor. rewrite filter_cons_False; [done|].
  simpl. by rewrite Hch.
Qed.

Lemma callsFor_changed o n :
  changed sl o n = true → callsFor sl [(o, n)] = [(o, n)].
Proof. intros Hch. unfold callsFor. by rewrite filter_cons_True. Qed.

(** The slice [sl] of a snapshot taken at an expiry. *)
Lemma snapshot_slice (side : Pending → State) t s (l : list Slice) :
  sameSlice sl
    (foldr (fun sl' acc =>
              match timers s sl' with
              | Some p =>
                  if bool_decide (due p = t)
                  then mergeSlices (fun x => bool_decide (x = sl'))
                                   (side p) acc
                  else acc
              | None => acc
              end) (observed s) l)
    (match timers s sl with
     | Some p =>
         if bool_decide (due p = t) && bool_decide (sl ∈ l)
         then side p else observed s
     | None => observed s
     end).
Proof.
  induction l as [|x l IH]; cbn [foldr].
  - destruct (timers s sl) as [p|]; [|apply sameSlice_refl].
    rewrite (bool_decide_eq_false_2 (sl ∈ [])) by apply not_elem_of_nil.
    rewrite andb_false_r. apply sameSlice_refl.
  - destruct (decide (x = sl)) as [->|Hne].
    + destruct (timers s sl) as [p|] eqn:Hp; [|exact IH].
      rewrite (bool_decide_eq_true_2 (sl ∈ sl :: l)) by left.
      rewrite andb_true_r. destruct (bool_decide (due p = t)) eqn:Hdue.
      * eapply sameSlice_trans; [apply sameSlice_mergeSlices|].
        rewrite bool_decide_eq_true_2 by done. apply sameSlice_refl.
      * simpl in IH. exact IH.
    + assert (bool_decide (sl ∈ x :: l) = bool_decide (sl ∈ l)) as ->.
      { apply bool_decide_ext. rewrite elem_of_cons.
        split; [intros [->|?]; [by destruct Hne|done]|by right]. }
      destruct (timers s x) as [px|]; [|exact IH].
      destruct (bool_decide (due px = t)); [|exact IH].
      eapply sameSlice_trans; [apply sameSlice_mergeSlices|].
      rewrite bool_decide_eq_false_2 by done. exact IH.
Qed.

(** The one call of an expiry, seen from the slice [sl]. *)
Lemma fire_call t s :
  ∃ o n, (fire t s).2 = [(o, n)]
    ∧ sameSlice sl o
        (match timers s sl with
         | Some p => if bool_decide (due p = t) then oldSnapshot p
                     else observed s
         | None => observed s
         end)
    ∧ sameSlice sl n
        (match timers s sl with
         | Some p => if bool_decide (due p = t) then newSnapshot p
                     else observed s
         | None => observed s
         end).
Proof.
  eexists _, _. split; [reflexivity|].
  pose proof (snapshot_slice oldSnapshot t s allSlices) as Ho.
  pose proof (snapshot_slice newSnapshot t s allSlices) as Hn.
  destruct (timers s sl) as [p|]; [|by split].
  rewrite (bool_decide_eq_true_2 (sl ∈ allSlices)) in Ho, Hn
    by apply slice_in_allSlices.
  rewrite andb_true_r in Ho, Hn. by split.
Qed.

Lemma fire_untouched t s :
  (∀ p, timers s sl = Some p → due p ≠ t) →
  callsFor sl (fire t s).2 = [].
Proof.
  intros Hnot. destruct (fire_call t s) as (o & n & -> & Ho & Hn).
  apply callsFor_unchanged.
  destruct (timers s sl) as [p|] eqn:Hp.
  - rewrite bool_decide_eq_false_2 in Ho, Hn by by apply Hnot.
    rewrite (changed_sameSlice _ _ _ _ _ Ho Hn). apply unchanged_refl.
  - rewrite (changed_sameSlice _ _ _ _ _ Ho Hn). apply unchanged_refl.
Qed.

Lemma fire_timers t s x :
  timers (fire t s).1 x
  = match timers s x with
    | Some p => if bool_decide (due p = t) then None else Some p
    | None => None
    end.
Proof. unfold fire, dueAt. cbn [fst timers]. by destruct (timers s x). Qed.

(** The earliest deadline is that of a pending timer, and no pending
    timer is due before it. *)
Lemma nextDue_spec s (l : list Slice) :
  match foldr (fun x acc =>
                 match timers s x, acc with
                 | Some p, Some t => Some (N.min (due p) t)
                 | Some p, None => Some (due p)
                 | None, _ => acc
                 end) None l with
  | Some d =>
      (∃ x p, x ∈ l ∧ timers s x = Some p ∧ due p = d)
      ∧ ∀ x p, x ∈ l → timers s x = Some p → (d ≤ due p)%N
  | None => ∀ x, x ∈ l → timers s x = None
  end.
Proof.
  induction l as [|y l IH]; simpl.
  - intros x Hx. by apply elem_of_nil in Hx.
  - destruct (timers s y) as [py|] eqn:Hy.
    + destruct (foldr _ None l) as [t|].
      * destruct IH as [(x & p & Hx & Hp & Hd) Hmin]. split.
        -- destruct (N.min_spec (due py) t) as [[_ ->]|[_ ->]].
           ++ exists y, py. split; [left|done].
           ++ exists x, p. split; [by right|done].
        -- intros x' p' [->|Hx']%elem_of_cons Hp'.
           ++ simplify_eq. lia.
           ++ specialize (Hmin x' p' Hx' Hp'). lia.
      * split.
        -- exists y, py. split; [left|done].
        -- intros x' p' [->|Hx']%elem_of_cons Hp'.
           ++ simplify_eq. lia.
           ++ rewrite IH in Hp' by done. discriminate.
    + destruct (foldr _ None l) as [t|].
      * destruct IH as [(x & p & Hx & Hp & Hd) Hmin]. split.
        -- exists x, p. split; [by right|done].
        -- intros x' p' [->|Hx']%elem_of_cons Hp'; [congruence|].
           by apply (Hmin x').
      * intros x [->|Hx]%elem_of_cons; [done|by apply IH].
Qed.

Lemma nextDue_Some s d :
  nextDue s = Some d →
  (∃ x p, timers s x = Some p ∧ due p = d)
  ∧ ∀ x p, timers s x = Some p → (d ≤ due p)%N.
Proof.
  intros Hnext. pose proof (nextDue_spec s allSlices) as Hspec.
  unfold nextDue in Hnext. rewrite Hnext in Hspec.
  destruct Hspec as [(x & p & _ & Hp & Hd) Hmin]. split; [eauto|].
  intros x' p'. apply (Hmin x'), slice_in_allSlices.
Qed.

Lemma nextDue_None s x : nextDue s = None → timers s x = None.
Proof.
  intros Hnext. pose proof (nextDue_spec s allSlices) as Hspec.
  unfold nextDue in Hnext. rewrite Hnext in Hspec.
  apply Hspec, slice_in_allSlices.
Qed.

(** An expiry at the earliest deadline leaves fewer timers. *)
Lemma filter_length_lt {A} (P Q : A → Prop)
    `{∀ x, Decision (P x)} `{∀ x, Decision (Q x)} (l : list A) x :
  (∀ y, Q y → P y) → x ∈ l → P x → ¬ Q x →
  (length (filter Q l) < length (filter P l))%nat.
Proof.
  intros HQP. induction l as [|y l IH]; [by intros ?%elem_of_nil|].
  assert (length (filter Q l) ≤ length (filter P l))%nat as Hle.
  { clear IH. induction l as [|z l IH]; [done|].
    rewrite !filter_cons. destruct (decide (Q z)) as [Hq|Hq].
    - rewrite decide_True by by apply HQP. simpl. lia.
    - destruct (decide (P z)); simpl; lia. }
  intros [->|Hin]%elem_of_cons HP HnQ.
  - rewrite (filter_cons_True P), (filter_cons_False Q) by done.
    simpl. lia.
  - specialize (IH Hin HP HnQ). rewrite !filter_cons.
    destruct (decide (Q y)) as [Hq|Hq].
    + rewrite decide_True by by apply HQP. simpl. lia.
    + destruct (decide (P y)); simpl; lia.
Qed.

Lemma pendingCount_fire s d :
  nextDue s = Some d → (pendingCount (fire d s).1 < pendingCount s)%nat.
Proof.
  intros Hnext. destruct (nextDue_Some _ _ Hnext) as [(x & p & Hp & Hd) _].
  unfold pendingCount. apply (filter_length_lt _ _ _ x).
  - intros y. rewrite fire_timers. destruct (timers s y); [done|].
    by intros [? ?].
  - apply slice_in_allSlices.
  - by rewrite Hp.
  - rewrite fire_timers, Hp, bool_decide_eq_true_2 by done. by intros [? ?].
Qed.

(** While the timer of [sl] is not due, time passes without a call that
    carries [sl], and the timer stays. *)
Lemma advanceTo_not_due rounds t s p :
  timers s sl = Some p → (t < due p)%N →
  callsFor sl (advanceTo rounds t s).2 = []
  ∧ timers (advanceTo rounds t s).1 sl = Some p
  ∧ clock (advanceTo rounds t s).1 = t
  ∧ observed (advanceTo rounds t s).1 = observed s.
Proof.
  revert s. induction rounds as [|rounds IH]; intros s Hp Hlate; [done|].
  destruct (nextDue s) as [d|] eqn:Hnext;
    [|by rewrite advanceTo_idle by done].
  destruct (decide (d ≤ t)%N) as [Hle|Hgt].
  - rewrite (advanceTo_fire _ _ _ _ Hnext Hle). cbn [fst snd].
    assert (timers (fire d s).1 sl = Some p) as Hp'.
    { rewrite fire_timers, Hp, bool_decide_eq_false_2; [done|lia]. }
    destruct (IH _ Hp' Hlate) as (Hcalls & Htimer & Hclock & Hobs).
    split; [|done].
    rewrite callsFor_app, Hcalls, app_nil_r.
    apply fire_untouched. intros p' Hp''. simplify_eq. lia.
  - cbn [advanceTo]. rewrite Hnext.
    by rewrite (proj2 (N.leb_gt _ _)) by lia.
Qed.

(** Without a timer for [sl], no call carries it. *)
Lemma advanceTo_absent rounds t s :
  timers s sl = None →
  callsFor sl (advanceTo rounds t s).2 = []
  ∧ timers (advanceTo rounds t s).1 sl = None.
Proof.
  revert s. induction rounds as [|rounds IH]; intros s Hp; [done|].
  destruct (nextDue s) as [d|] eqn:Hnext;
    [|by rewrite advanceTo_idle by done].
  destruct (decide (d ≤ t)%N) as [Hle|Hgt].
  - rewrite (advanceTo_fire _ _ _ _ Hnext Hle). cbn [fst snd].
    assert (timers (fire d s).1 sl = None) as Hp'.
    { by rewrite fire_timers, Hp. }
    destruct (IH _ Hp') as (Hcalls & Htimer). split; [|done].
    rewrite callsFor_app, Hcalls, app_nil_r.
    apply fire_untouched. intros p' Hp''. congruence.
  - cbn [advanceTo]. rewrite Hnext.
    by rewrite (proj2 (N.leb_gt _ _)) by lia.
Qed.

(** Once the timer of [sl] is due, exactly one call carries [sl]: it
    goes from the old to the new snapshot of the timer. *)
Lemma advanceTo_due rounds t s p :
  timers s sl = Some p → (due p ≤ t)%N →
  (pendingCount s ≤ rounds)%nat →
  changed sl (oldSnapshot p) (newSnapshot p) = true →
  ∃ o n, callsFor sl (advanceTo rounds t s).2 = [(o, n)]
    ∧ sameSlice sl o (oldSnapshot p) ∧ sameSlice sl n (newSnapshot p)
    ∧ timers (advanceTo rounds t s).1 sl = None.
Proof.
  intros Hp Hdue Hcount Hch. revert s Hp Hcount.
  induction rounds as [|rounds IH]; intros s Hp Hcount.
  { exfalso. unfold pendingCount in Hcount.
    assert (sl ∈ filter (fun x => is_Some (timers s x)) allSlices) as Hin.
    { apply list_elem_of_filter. split; [by rewrite Hp|].
      apply slice_in_allSlices. }
    destruct (filter _ allSlices); [by apply elem_of_nil in Hin|].
    simpl in Hcount. lia. }
  destruct (nextDue s) as [d|] eqn:Hnext.
  2:{ by rewrite (nextDue_None _ sl Hnext) in Hp. }
  destruct (nextDue_Some _ _ Hnext) as [_ Hmin].
  pose proof (Hmin sl p Hp) as Hd.
  rewrite (advanceTo_fire _ _ _ _ Hnext) by lia. cbn [fst snd].
  rewrite callsFor_app.
  destruct (decide (due p = d)) as [Heq|Hne].
  - destruct (fire_call d s) as (o & n & Hcall & Ho & Hn).
    rewrite Hp, bool_decide_eq_true_2 in Ho, Hn by done.
    assert (timers (fire d s).1 sl = None) as Hp'.
    { by rewrite fire_timers, Hp, bool_decide_eq_true_2. }
    destruct (advanceTo_absent rounds t _ Hp') as [Hrest Htimer].
    exists o, n. rewrite Hcall, Hrest, app_nil_r. split; [|done].
    apply callsFor_changed. by rewrite (changed_sameSlice _ _ _ _ _ Ho Hn).
  - assert (timers (fire d s).1 sl = Some p) as Hp'.
    { by rewrite fire_timers, Hp, bool_decide_eq_false_2. }
    pose proof (pendingCount_fire _ _ Hnext) as Hless.
    destruct (IH _ Hp') as (o & n & Hcalls & Hrest); [lia|].
    exists o, n. rewrite Hcalls. split; [|done].
    rewrite (fire_untouched d s); [done|].
    intros p' Hp''. by simplify_eq.
Qed.

Lemma pendingCount_bound s : (pendingCount s ≤ length allSlices)%nat.
Proof. apply length_filter. Qed.

(** A state change never calls the updater for a debounced slice; it
    restarts the timer of a changed one. *)
Lemma onStateChange_untouched oldState newState s :
  (0 < delays sl)%N →
  callsFor sl (onStateChange delays oldState newState s).2 = [].
Proof.
  intros Hdelay. unfold onStateChange. cbn [snd].
  destruct (existsb _ allSlices); [|done].
  apply callsFor_unchanged.
  rewrite (changed_sameSlice sl _ oldState _
             (if changed sl oldState newState
                 && bool_decide (delays sl = 0%N)
              then newState else oldState)
             (sameSlice_refl _ _)).
  - rewrite (bool_decide_eq_false_2 (delays sl = 0%N)) by lia.
    rewrite andb_false_r. apply unchanged_refl.
  - apply (sameSlice_mergeSlices sl
             (fun x => changed x oldState newState
                       && bool_decide (delays x = 0%N))).
Qed.

Lemma onStateChange_timer oldState newState s :
  (0 < delays sl)%N → changed sl oldState newState = true →
  timers (onStateChange delays oldState newState s).1 sl
  = Some {| due := clock s + delays sl; oldSnapshot := oldState;
            newSnapshot := newState |}
  ∧ clock (onStateChange delays oldState newState s).1 = clock s.
Proof.
  intros Hdelay Hch. unfold onStateChange. cbn [fst timers clock].
  by rewrite Hch, bool_decide_eq_true_2.
Qed.

End DebounceTimers.

(** * The batched updater: the properties of the specification *)

Section UpdaterClaims.
Context {codec : DefaultEncoders} {serializer : QuerySerializer}.
Variables (router : Router.t) (options : option Options).
Variables (oldState newState : State).

(** C7.  The updater raises nothing of its own: it throws exactly when a
    caller-supplied encoder of a changed slice throws, the exception of
    the first such slice reaches the caller, and the router's navigate
    is then never called. *)
Theorem update_propagates_encoder_exception :
  (run (update router options oldState newState)).1
  = from_option Throw (Normal tt) (firstThrow options oldState newState)
  ∧ (∀ e, (run (update router options oldState newState)).1 = Throw e →
          ∃ sl, changed sl oldState newState = true
                ∧ overrideResult options newState sl = Some (Throw e))
  ∧ (∀ sl e, changed sl oldState newState = true →
             overrideResult options newState sl = Some (Throw e) →
             (∃ e', (run (update router options oldState newState)).1
                    = Throw e')
             ∧ navigations
                 (trace (run (update router options oldState newState)).2)
               = []).
Proof.
  rewrite update_run. split; [|split].
  - by destruct (firstThrow _ _ _).
  - intros e. destruct (firstThrow _ _ _) as [e'|] eqn:E; [|done].
    simpl. intros [= ->]. apply firstThrow_Some in E as [sl Hsl].
    exists sl. by apply thrownBy_Some.
  - intros sl e Hch Hov.
    destruct (firstThrow _ _ _) as [e'|] eqn:E.
    + simpl. split; [by exists e'|].
      rewrite trace_mergedLocals. apply plannedOps_mutations.
    + rewrite firstThrow_None in E. specialize (E sl).
      assert (thrownBy options oldState newState sl = Some e) as E'
        by by apply thrownBy_Some.
      by rewrite E in E'.
Qed.

End UpdaterClaims.

(** C1, as amended.  When no caller-supplied encoder throws, the updater
    calls the router's navigate exactly once, however many slices changed;
    and [update(s, s)] always returns after that one navigation, without
    a single write or delete: its trace is the navigation alone, [query]
    is still the router's query and [updates] is empty. *)
Theorem update_navigates_once :
  (∀ (codec : DefaultEncoders) (serializer : QuerySerializer)
     router options oldState newState,
     encodersReturn options oldState newState →
     ∃ h, run (update router options oldState newState) = (Normal tt, h)
          ∧ navigations (trace h) = [navigateUrl router (cleanQuery h)])
  ∧ (∀ (codec : DefaultEncoders) (serializer : QuerySerializer)
       router options s,
       run (update router options s s)
       = (Normal tt,
          {| query := Router.query router; updates := ∅;
             trace := [OpNavigate
                         (navigateUrl router
                            (stripUndefined (Router.query router)))] |})).
Proof.
  split.
  - intros codec serializer router options oldState newState Hret.
    destruct (update_completes router _ _ _ Hret) as (h & Hrun & _ & _ & Htr).
    exists h. split; [done|]. by eapply navigations_completed.
  - intros codec serializer router options s.
    assert (∀ sl, sliceOps options s s sl = Normal []) as Hops.
    { intros sl. unfold sliceOps. by rewrite unchanged_refl. }
    rewrite update_run.
    assert (firstThrow options s s = None) as ->.
    { apply firstThrow_None. intros sl. by rewrite thrownBy_sliceOps, Hops. }
    unfold mergedLocals, plannedOps, allSlices. cbn [fmap list_fmap].
    rewrite !Hops. simpl. unfold cleanQuery, finalQuery. simpl.
    by rewrite (left_id_L ∅ (∪)).
Qed.

(** C1 as stated fails: a global-filter encoder that throws ends the
    updater before the navigation, which is then called zero times. *)
Lemma update_throwing_encoder_never_navigates :
  let r := Example.update (Example.router ∅) Example.throwingEncoder
             Example.initialState
             (Example.setGlobalFilter (Some "a") Example.initialState) in
  r.1 = Throw (Error "boom") ∧ length (navigations (trace r.2)) ≠ 1.
Proof. vm_compute. split; [reflexivity|discriminate]. Qed.

Lemma update_navigates_once_witness :
  ∃ h, Example.update (Example.router ∅) None Example.initialState
         (Example.setGlobalFilter (Some "a") Example.initialState)
       = (Normal tt, h)
       ∧ navigations (trace h) = ["/?globalFilter=a"].
Proof.
  destruct (proj1 update_navigates_once
              (Codec.encoders (parameters := standardParameters))
              standardSerializer (Example.router ∅) None
              Example.initialState
              (Example.setGlobalFilter (Some "a") Example.initialState))
    as (h & Hrun & Hnav).
  - intros sl e _. destruct sl; discriminate.
  - exists h. split; [exact Hrun|].
    rewrite Hnav. unfold Example.update in *.
    injection Hrun as <-. vm_compute. reflexivity.
Defined.



Lemma update_propagates_encoder_exception_witness :
  let r := Example.update (Example.router Example.queryInitial)
             Example.throwingEncoder Example.filteredByInitial
             Example.initialState in
  (∃ e, r.1 = Throw e) ∧ navigations (trace r.2) = [].
Proof.
  apply (proj2 (proj2 (update_propagates_encoder_exception
                  (codec := Codec.encoders (parameters := standardParameters))
                  (serializer := standardSerializer)
                  (Example.router Example.queryInitial)
                  Example.throwingEncoder Example.filteredByInitial
                  Example.initialState))
           GlobalFilter (Error "boom")).
  - reflexivity.
  - reflexivity.
Defined.


(** * Further properties of the updater *)

(** ** The navigated query, read off the trace *)

Lemma written_opWrites k op : is_Some (written k op) ↔ opWrites k op.
Proof.
  destruct op as [key v|key|source|url]; simpl.
  - destruct (decide (key = k)); split; try done; by intros [? ?].
  - split; [by intros [? ?]|done].
  - done.
  - split; [by intros [? ?]|done].
Qed.

Lemma lastWrite_snoc k ops op :
  lastWrite k (ops ++ [op])
  = match written k op with
    | Some v => Some v
    | None => lastWrite k ops
    end.
Proof.
  unfold lastWrite. rewrite omap_app, last_app. simpl.
  by destruct (written k op).
Qed.

Lemma updates_runOps k ops h :
  updates (runOps ops h) !! k
  = match lastWrite k ops with
    | Some v => Some v
    | None => updates h !! k
    end.
Proof.
  induction ops as [|op ops IH] using rev_ind; [done|].
  rewrite runOps_app, lastWrite_snoc. simpl.
  destruct op as [key v|key|source|url]; simpl; try exact IH.
  - destruct (decide (key = k)) as [->|Hne].
    + apply lookup_insert_eq.
    + by rewrite lookup_insert_ne.
  - destruct (source !! k) as [v|] eqn:E.
    + by apply lookup_union_Some_l.
    + by rewrite lookup_union_r.
Qed.

Lemma query_runOps k ops h :
  query (runOps ops h) !! k
  = if decide (OpDelete k ∈ ops) then None else query h !! k.
Proof.
  destruct (decide _).
  - by apply query_runOps_deleted.
  - by apply query_runOps_untouched.
Qed.

(** One mutation alone writes [k]: its value is the last write. *)
Lemma lastWrite_unique k ops op v :
  op ∈ ops → written k op = Some v →
  (∀ op', op' ∈ ops → opWrites k op' → op' = op) →
  lastWrite k ops = Some v.
Proof.
  intros Hin Hv Hall. unfold lastWrite.
  destruct (list.last (omap (written k) ops)) as [v'|] eqn:E.
  - apply last_Some in E as [l' E].
    assert (v' ∈ omap (written k) ops) as Hv'.
    { rewrite E. apply elem_of_app. right. left. }
    apply list_elem_of_omap in Hv' as (op' & Hin' & Hw').
    rewrite (Hall op' Hin') in Hw'; [congruence|].
    apply written_opWrites. by rewrite Hw'.
  - apply last_None in E.
    assert (v ∈ omap (written k) ops) as Hv'.
    { apply list_elem_of_omap. eauto. }
    rewrite E in Hv'. by apply elem_of_nil in Hv'.
Qed.

Section TraceSemantics.
Context {codec : DefaultEncoders} {serializer : QuerySerializer}.
Variables (router : Router.t) (options : option Options).
Variables (oldState newState : State).

Lemma cleanQuery_planned h k :
  query h = query (mergedLocals router options oldState newState) →
  updates h = updates (mergedLocals router options oldState newState) →
  cleanQuery h !! k
  = match lastWrite k (plannedOps options oldState newState) with
    | Some v => entry v
    | None =>
        if decide (OpDelete k ∈ plannedOps options oldState newState)
        then None
        else stripUndefined (Router.query router) !! k
    end.
Proof.
  intros Hq Hu. unfold cleanQuery.
  rewrite lookup_stripUndefined, lookup_finalQuery, Hq, Hu.
  unfold mergedLocals. rewrite updates_runOps, query_runOps. simpl.
  rewrite lookup_empty.
  destruct (lastWrite k _) as [v|]; [by destruct v|].
  destruct (decide _); [done|]. by rewrite lookup_stripUndefined.
Qed.

End TraceSemantics.

(** X1.  In a run where no encoder throws, the navigated query is a
    function of the router's query and of the trace: a key holds the value
    of the last mutation that wrote it, and is absent when that value is
    undefined, whether or not the key was also deleted, before or after;
    a key no mutation wrote is absent when it was deleted and otherwise
    keeps the defined value it has in the router's query. *)
Theorem navigated_query_from_trace :
  ∀ (codec : DefaultEncoders) (serializer : QuerySerializer)
    router options oldState newState,
    encodersReturn options oldState newState →
    ∃ h, run (update router options oldState newState) = (Normal tt, h)
         ∧ ∀ k, cleanQuery h !! k
                = match lastWrite k (trace h) with
                  | Some v => entry v
                  | None =>
                      if decide (OpDelete k ∈ trace h) then None
                      else stripUndefined (Router.query router) !! k
                  end.
Proof.
  intros codec serializer router options oldState newState Hret.
  destruct (update_completes router _ _ _ Hret) as (h & Hrun & Hq & Hu & Htr).
  exists h. split; [done|]. intros k.
  rewrite (cleanQuery_planned router options oldState newState h k Hq Hu).
  rewrite Htr, lastWrite_snoc. simpl.
  destruct (lastWrite k _); [done|].
  destruct (decide (OpDelete k ∈ plannedOps options oldState newState))
    as [Hin|Hout]; destruct (decide _) as [Hin'|Hout']; try done.
  - destruct Hout'. apply elem_of_app. by left.
  - apply elem_of_app in Hin' as [?|Hnav]; [done|].
    by apply list_elem_of_singleton in Hnav.
Qed.

Lemma navigated_query_from_trace_witness :
  ∃ h, Example.update (Example.router Example.queryTestAndJohn) None
         Example.filteredByTestAndJohn
         (Example.setGlobalFilter (Some "next") Example.initialState)
       = (Normal tt, h)
       ∧ cleanQuery h !! "globalFilter" = Some (QString "next")
       ∧ cleanQuery h !! "columnFilters" = None.
Proof.
  destruct (navigated_query_from_trace
              (Codec.encoders (parameters := standardParameters))
              standardSerializer (Example.router Example.queryTestAndJohn)
              None Example.filteredByTestAndJohn
              (Example.setGlobalFilter (Some "next") Example.initialState))
    as (h & Hrun & Hkeys).
  - intros sl e _. destruct sl; discriminate.
  - exists h. split; [exact Hrun|]. rewrite !Hkeys.
    unfold Example.update in Hrun. injection Hrun as <-.
    split; vm_compute; reflexivity.
Defined.

Section DefinedWritten.
Context {codec : DefaultEncoders} {serializer : QuerySerializer}.
Variables (router : Router.t) (options : option Options).
Variables (oldState newState : State).

(** A parameter whose default encoding is defined, and whose name no
    other parameter claims, holds that encoding in the merged query. *)
Lemma defined_written h p :
  query h = query (mergedLocals router options oldState newState) →
  updates h = updates (mergedLocals router options oldState newState) →
  firstThrow options oldState newState = None →
  changed (sliceOf p) oldState newState = true →
  overrideResult options newState (sliceOf p) = None →
  isDefined (defaultEncoded options newState p) = true →
  (∀ p', p' ≠ p →
         ¬ claims options oldState newState p' (paramName options p)) →
  OpSet (paramName options p) (defaultEncoded options newState p)
  ∈ plannedOps options oldState newState
  ∧ cleanQuery h !! paramName options p
    = Some (defaultEncoded options newState p).
Proof.
  intros Hq Hu Hret Hch Hov Hdef Hothers.
  assert (OpSet (paramName options p) (defaultEncoded options newState p)
          ∈ plannedOps options oldState newState) as Hin.
  { eapply (plannedOps_complete _ _ _ (sliceOf p)); [done| |].
    - unfold sliceOps. by rewrite Hch, Hov.
    - apply list_elem_of_fmap. exists p. split; [|apply paramsOf_sliceOf].
      unfold writeOp. by rewrite Hdef. }
  split; [done|].
  rewrite (cleanQuery_planned router options oldState newState h _ Hq Hu).
  rewrite (lastWrite_unique _ _ _ (defaultEncoded options newState p) Hin).
  - unfold entry. by rewrite Hdef.
  - simpl. by destruct (decide (paramName options p = paramName options p)).
  - intros op' Hin' Hw.
    destruct (touch_claimed _ _ _ _ _ Hin' (or_introl Hw)) as (p' & Hp' & Hop).
    destruct (decide (p' = p)) as [->|Hne]; [|by destruct (Hothers p' Hne)].
    rewrite (Hop Hov). unfold writeOp. by rewrite Hdef.
Qed.

End DefinedWritten.

(** X2.  A parameter of a changed slice that the default codec encodes
    to a defined value is set to that value in the navigated query,
    whatever the router's query held under its name, provided no encoder
    throws and no other parameter claims the name. *)
Theorem defined_encoding_sets_parameter :
  ∀ (codec : DefaultEncoders) (serializer : QuerySerializer)
    router options oldState newState p,
    encodersReturn options oldState newState →
    changed (sliceOf p) oldState newState = true →
    overrideResult options newState (sliceOf p) = None →
    isDefined (defaultEncoded options newState p) = true →
    (∀ p', p' ≠ p →
           ¬ claims options oldState newState p' (paramName options p)) →
    ∃ h, run (update router options oldState newState) = (Normal tt, h)
         ∧ OpSet (paramName options p) (defaultEncoded options newState p)
           ∈ trace h
         ∧ cleanQuery h !! paramName options p
           = Some (defaultEncoded options newState p).
Proof.
  intros codec serializer router options oldState newState p
    Hret Hch Hov Hdef Hothers.
  destruct (update_completes router _ _ _ Hret) as (h & Hrun & Hq & Hu & Htr).
  apply encodersReturn_firstThrow in Hret.
  destruct (defined_written router _ _ _ h p Hq Hu Hret Hch Hov Hdef Hothers)
    as [Hin Hkey].
  exists h. split; [done|]. split; [|done].
  rewrite Htr. apply elem_of_app. by left.
Qed.

Lemma defined_encoding_sets_parameter_witness :
  ∃ h, Example.update (Example.router Example.queryInitial) None
         Example.filteredByInitial
         (Example.setGlobalFilter (Some "next") Example.filteredByInitial)
       = (Normal tt, h)
       ∧ OpSet "globalFilter" (QString "next") ∈ trace h
       ∧ cleanQuery h !! "globalFilter" = Some (QString "next").
Proof.
  apply (defined_encoding_sets_parameter
           (Codec.encoders (parameters := standardParameters))
           standardSerializer (Example.router Example.queryInitial) None
           Example.filteredByInitial
           (Example.setGlobalFilter (Some "next") Example.filteredByInitial)
           PGlobalFilter).
  - intros sl e _. destruct sl; discriminate.
  - reflexivity.
  - reflexivity.
  - reflexivity.
  - intros p' Hne [Hch Hname]. destruct p'; vm_compute in Hch, Hname;
      first [discriminate | by apply Hne].
Defined.

(** X3.  Every pair of the object that the caller-supplied encoder of a
    changed slice returns reaches the navigated query: a defined value is
    the entry of its key, and an undefined value removes the key, also
    when the router's query holds it; provided no encoder throws and no
    other slice claims the key. *)
Theorem override_pairs_navigated :
  ∀ (codec : DefaultEncoders) (serializer : QuerySerializer)
    router options oldState newState sl source k v,
    encodersReturn options oldState newState →
    changed sl oldState newState = true →
    overrideResult options newState sl = Some (Normal source) →
    source !! k = Some v →
    (∀ p, sliceOf p ≠ sl → ¬ claims options oldState newState p k) →
    ∃ h, run (update router options oldState newState) = (Normal tt, h)
         ∧ cleanQuery h !! k = if isDefined v then Some v else None.
Proof.
  intros codec serializer router options oldState newState sl source k v
    Hret Hch Hov Hk Hothers.
  destruct (update_completes router _ _ _ Hret) as (h & Hrun & Hq & Hu & Htr).
  apply encodersReturn_firstThrow in Hret.
  assert (OpAssign source ∈ plannedOps options oldState newState) as Hin.
  { eapply (plannedOps_complete _ _ _ sl); [done| |].
    - unfold sliceOps. by rewrite Hch, Hov.
    - left. }
  exists h. split; [done|].
  rewrite (cleanQuery_planned router options oldState newState h k Hq Hu).
  rewrite (lastWrite_unique k _ (OpAssign source) v Hin); [done..|].
  intros op' Hin' Hw.
  destruct (elem_of_plannedOps _ _ _ _ Hin') as (sl' & ops & Hsl' & Hop').
  destruct (elem_of_sliceOps _ _ _ _ _ _ Hsl' Hop')
    as [Hch' [(source' & Hov' & ->)|(Hov' & p & <- & ->)]].
  - destruct (decide (sl' = sl)) as [->|Hne]; [congruence|].
    destruct (paramsOf sl') as [|p ps] eqn:Hps; [by destruct sl'|].
    assert (sliceOf p = sl') as Hp.
    { apply sliceOf_paramsOf. rewrite Hps. left. }
    destruct (Hothers p); [congruence|].
    split; [by rewrite Hp|]. by rewrite Hp, Hov'.
  - destruct (decide (sliceOf p = sl)) as [Heq|Hne].
    { rewrite Heq, Hov in Hov'. discriminate. }
    destruct (Hothers p Hne). split; [done|]. rewrite Hov'.
    unfold writeOp in Hw. by destruct (isDefined _).
Qed.

Lemma override_pairs_navigated_witness :
  ∃ h, Example.update (Example.router {[ "q" := QString "old" ]})
         Example.searchEncoder Example.filteredByInitial
         (Example.setGlobalFilter None Example.filteredByInitial)
       = (Normal tt, h)
       ∧ cleanQuery h !! "q" = None.
Proof.
  apply (override_pairs_navigated
           (Codec.encoders (parameters := standardParameters))
           standardSerializer (Example.router {[ "q" := QString "old" ]})
           Example.searchEncoder Example.filteredByInitial
           (Example.setGlobalFilter None Example.filteredByInitial)
           GlobalFilter {[ "q" := QUndefined ]} "q" QUndefined).
  - intros sl e _. destruct sl; discriminate.
  - reflexivity.
  - reflexivity.
  - reflexivity.
  - intros p Hne [Hch _]. destruct p; vm_compute in Hch;
      first [discriminate | by apply Hne].
Defined.

(** ** Running the updater again *)

Lemma stripUndefined_idemp (q : Query) :
  stripUndefined (stripUndefined q) = stripUndefined q.
Proof.
  apply map_eq. intros k. rewrite !lookup_stripUndefined.
  by destruct (q !! k) as [[]|].
Qed.

Lemma stripUndefined_cleanQuery h :
  stripUndefined (cleanQuery h) = cleanQuery h.
Proof. apply stripUndefined_idemp. Qed.

(** X4.  The merge is idempotent: once the navigation has taken effect,
    the same update against the router's new query navigates to the same
    query and the same URL.  (The URL is the serializer's string for the
    entries of the query; the order of its pairs is not part of the
    model.) *)
Theorem update_again_same_query :
  ∀ (codec : DefaultEncoders) (serializer : QuerySerializer)
    router options oldState newState,
    encodersReturn options oldState newState →
    ∃ h h',
      run (update router options oldState newState) = (Normal tt, h)
      ∧ run (update (navigated router h) options oldState newState)
        = (Normal tt, h')
      ∧ cleanQuery h' = cleanQuery h
      ∧ navigations (trace h') = navigations (trace h).
Proof.
  intros codec serializer router options oldState newState Hret.
  destruct (update_completes router _ _ _ Hret) as (h & Hrun & Hq & Hu & Htr).
  destruct (update_completes (navigated router h) _ _ _ Hret)
    as (h' & Hrun' & Hq' & Hu' & Htr').
  assert (cleanQuery h' = cleanQuery h) as Hsame.
  { apply map_eq. intros k.
    rewrite (cleanQuery_planned _ options oldState newState h' k Hq' Hu').
    simpl. rewrite stripUndefined_cleanQuery.
    rewrite (cleanQuery_planned _ options oldState newState h k Hq Hu).
    destruct (lastWrite k _); [done|]. by destruct (decide _). }
  exists h, h'. split; [done|]. split; [done|]. split; [done|].
  rewrite (navigations_completed _ _ _ _ _ Htr).
  rewrite (navigations_completed _ _ _ _ _ Htr').
  unfold navigateUrl. simpl. by rewrite Hsame.
Qed.

Lemma update_again_same_query_witness :
  ∃ h h',
    Example.update (Example.router Example.queryInitial) None
      Example.filteredByInitial Example.busyState
    = (Normal tt, h)
    ∧ Example.update (navigated (Example.router Example.queryInitial) h)
        None Example.filteredByInitial Example.busyState
      = (Normal tt, h')
    ∧ cleanQuery h' = cleanQuery h.
Proof.
  destruct (update_again_same_query
              (Codec.encoders (parameters := standardParameters))
              standardSerializer (Example.router Example.queryInitial) None
              Example.filteredByInitial Example.busyState)
    as (h & h' & Hrun & Hrun' & Hsame & _).
  - intros sl e _. destruct sl; discriminate.
  - exists h, h'. split; [exact Hrun|]. split; [exact Hrun'|exact Hsame].
Defined.

(** X5.  The old state reaches the updater through the six change tests
    only: two old states that make the same slices differ from the new
    state give the same trace, the same locals and the same outcome. *)
Theorem old_state_only_through_changes :
  ∀ (codec : DefaultEncoders) (serializer : QuerySerializer)
    router options oldState oldState' newState,
    (∀ sl, changed sl oldState newState = changed sl oldState' newState) →
    run (update router options oldState newState)
    = run (update router options oldState' newState).
Proof.
  intros codec serializer router options oldState oldState' newState Hsame.
  assert (∀ sl, sliceOps options oldState newState sl
                = sliceOps options oldState' newState sl) as Hops.
  { intros sl. unfold sliceOps. by rewrite Hsame. }
  assert (plannedOps options oldState newState
          = plannedOps options oldState' newState) as Hplan.
  { unfold plannedOps. f_equal. apply list_fmap_ext. intros _ sl _. apply Hops. }
  assert (firstThrow options oldState newState
          = firstThrow options oldState' newState) as Hthrow.
  { unfold firstThrow. f_equal. apply list_omap_ext.
    apply Forall2_same_length_lookup. split; [done|].
    intros i sl sl' Hi Hi'. simplify_eq. unfold thrownBy. by rewrite Hsame. }
  rewrite !update_run. unfold mergedLocals. by rewrite Hthrow, Hplan.
Qed.

Lemma old_state_only_through_changes_witness :
  Example.update (Example.router Example.queryInitial) None
    Example.filteredByInitial Example.busyState
  = Example.update (Example.router Example.queryInitial) None
      (Example.setGlobalFilter (Some "other") Example.initialState)
      Example.busyState.
Proof.
  apply (old_state_only_through_changes
           (Codec.encoders (parameters := standardParameters))
           standardSerializer).
  intros sl. destruct sl; vm_compute; reflexivity.
Defined.

(** * [JSON.stringify] can be read back *)

Lemma append_String c (a b : string) : String c a +:+ b = String c (a +:+ b).
Proof. reflexivity. Qed.

Lemma append_Empty (b : string) : "" +:+ b = b.
Proof. reflexivity. Qed.

Lemma string_append_assoc (a b c : string) :
  (a +:+ b) +:+ c = a +:+ (b +:+ c).
Proof.
  induction a as [|x a IH]; [done|]. rewrite !append_String. by rewrite IH.
Qed.

Create Rewrite HintDb json.
#[local] Hint Rewrite string_append_assoc append_String append_Empty : json.

(** ** Strings *)

Lemma JSON_unquote_quote c x :
  JSON_unquote_char (JSON_quote_char c +:+ x) = Some (c, x).
Proof. destruct c as [[] [] [] [] [] [] [] []]; reflexivity. Qed.

Lemma JSON_unquote_closing r : JSON_unquote_char (String DQUOTE r) = None.
Proof. reflexivity. Qed.

Lemma JSON_quote_chars_inj s t r1 r2 :
  JSON_quote_chars s +:+ String DQUOTE r1
  = JSON_quote_chars t +:+ String DQUOTE r2 →
  s = t ∧ r1 = r2.
Proof.
  revert t. induction s as [|c s IH]; intros [|c' t];
    cbn [JSON_quote_chars]; autorewrite with json; intros Heq.
  - by injection Heq as ->.
  - apply (f_equal JSON_unquote_char) in Heq.
    by rewrite JSON_unquote_quote, JSON_unquote_closing in Heq.
  - apply (f_equal JSON_unquote_char) in Heq.
    by rewrite JSON_unquote_quote, JSON_unquote_closing in Heq.
  - apply (f_equal JSON_unquote_char) in Heq.
    rewrite !JSON_unquote_quote in Heq. injection Heq as -> Heq.
    by destruct (IH _ Heq) as [-> ->].
Qed.

Lemma JSON_stringify_string_app s r :
  JSON_stringify_string s +:+ r
  = String DQUOTE (JSON_quote_chars s +:+ String DQUOTE r).
Proof. unfold JSON_stringify_string, str1. by autorewrite with json. Qed.

Lemma JSON_stringify_string_inj s t r1 r2 :
  JSON_stringify_string s +:+ r1 = JSON_stringify_string t +:+ r2 →
  s = t ∧ r1 = r2.
Proof.
  rewrite !JSON_stringify_string_app. intros [= Heq].
  by apply JSON_quote_chars_inj.
Qed.

Lemma JSON_stringify_bool_inj a b r1 r2 :
  JSON_stringify_bool a +:+ r1 = JSON_stringify_bool b +:+ r2 →
  a = b ∧ r1 = r2.
Proof.
  destruct a, b; unfold JSON_stringify_bool; autorewrite with json;
    intros [= ->]; done.
Qed.

(** ** Joined items *)

Lemma join_cons_app sep x rest r :
  join sep (x :: rest) +:+ r
  = x +:+ match rest with
          | [] => r
          | _ => sep +:+ join sep rest +:+ r
          end.
Proof.
  destruct rest; [done|].
  change (join sep (x :: s :: rest)) with (x +:+ sep +:+ join sep (s :: rest)).
  by rewrite !string_append_assoc.
Qed.

Lemma join_inj {A} (print : A → string) (close : ascii)
    (l1 l2 : list A) r1 r2 :
  close ≠ ","%char →
  Forall (fun x => ∀ y s1 s2,
            afterItem close s1 → afterItem close s2 →
            print x +:+ s1 = print y +:+ s2 → x = y ∧ s1 = s2) l1 →
  (∀ y s, ∃ c s', print y +:+ s = String c s' ∧ c ≠ close) →
  join "," (print <$> l1) +:+ String close r1
  = join "," (print <$> l2) +:+ String close r2 →
  l1 = l2 ∧ r1 = r2.
Proof.
  intros Hclose Hitems Hhead. revert l2.
  induction Hitems as [|x l1 Hx _ IH]; intros [|y l2].
  - cbn [fmap list_fmap join]. rewrite !append_Empty. by intros [= ->].
  - rewrite fmap_cons, join_cons_app. cbn [fmap list_fmap join].
    rewrite append_Empty. intros Heq.
    destruct (Hhead y (match print <$> l2 with
                       | [] => String close r2
                       | _ => "," +:+ join "," (print <$> l2)
                              +:+ String close r2
                       end)) as (c & s' & Hc & Hne).
    rewrite Hc in Heq. congruence.
  - rewrite fmap_cons, join_cons_app. cbn [fmap list_fmap join].
    rewrite append_Empty. intros Heq.
    destruct (Hhead x (match print <$> l1 with
                       | [] => String close r1
                       | _ => "," +:+ join "," (print <$> l1)
                              +:+ String close r1
                       end)) as (c & s' & Hc & Hne).
    rewrite Hc in Heq. congruence.
  - rewrite !fmap_cons, !join_cons_app. intros Heq.
    apply Hx in Heq as [<- Heq].
    + destruct l1 as [|x1 l1], l2 as [|y1 l2];
        cbn [fmap list_fmap] in Heq; rewrite ?append_String in Heq.
      * by injection Heq as ->.
      * congruence.
      * congruence.
      * injection Heq as Heq. rewrite !append_Empty in Heq.
        by destruct (IH (y1 :: l2) Heq) as [-> ->].
    + destruct (print <$> l1); eexists; [by right|by left].
    + destruct (print <$> l2); eexists; [by right|by left].
Qed.

(** ** Numbers *)

Lemma digits_inj d d' r1 r2 :
  digitFree r1 → digitFree r2 →
  NilEmpty.string_of_uint d +:+ r1 = NilEmpty.string_of_uint d' +:+ r2 →
  d = d' ∧ r1 = r2.
Proof.
  intros H1 H2. revert d'.
  induction d as [|d IH|d IH|d IH|d IH|d IH|d IH|d IH|d IH|d IH|d IH];
    intros [|d'|d'|d'|d'|d'|d'|d'|d'|d'|d'];
    cbn [NilEmpty.string_of_uint]; autorewrite with json; intros Heq;
    try discriminate Heq;
    try (injection Heq as Heq; by destruct (IH _ Heq) as [-> ->]);
    try done;
    subst; simpl in *; discriminate.
Qed.

Lemma string_of_uint_nonNil d :
  d ≠ Decimal.Nil → NilZero.string_of_uint d = NilEmpty.string_of_uint d.
Proof. by destruct d. Qed.

Lemma digits_head d r :
  d ≠ Decimal.Nil →
  ∃ c s, NilEmpty.string_of_uint d +:+ r = String c s ∧ isDigit c = true.
Proof.
  destruct d; [done|..]; intros _; cbn [NilEmpty.string_of_uint];
    rewrite append_String; by eexists _, _.
Qed.

Lemma to_int_digits n :
  match Z.to_int n with
  | Decimal.Pos d | Decimal.Neg d => d ≠ Decimal.Nil
  end.
Proof.
  destruct n; simpl; [done|..]; apply DecimalPos.Unsigned.to_uint_nonnil.
Qed.

Lemma String_of_Z_inj a b r1 r2 :
  digitFree r1 → digitFree r2 →
  String_of_Z a +:+ r1 = String_of_Z b +:+ r2 → a = b ∧ r1 = r2.
Proof.
  intros H1 H2. unfold String_of_Z, NilZero.string_of_int.
  pose proof (to_int_digits a) as Ha. pose proof (to_int_digits b) as Hb.
  destruct (Z.to_int a) as [da|da] eqn:Ea, (Z.to_int b) as [db|db] eqn:Eb;
    rewrite !string_of_uint_nonNil by done; rewrite ?append_String;
    intros Heq.
  - apply digits_inj in Heq as [-> ->]; [|done..]. split; [|done].
    apply DecimalZ.to_int_inj. congruence.
  - destruct (digits_head da r1 Ha) as (c & s & Hc & Hd).
    rewrite Hc in Heq. injection Heq as -> _. discriminate Hd.
  - destruct (digits_head db r2 Hb) as (c & s & Hc & Hd).
    rewrite Hc in Heq. injection Heq as <- _. discriminate Hd.
  - injection Heq as Heq. apply digits_inj in Heq as [-> ->]; [|done..].
    split; [|done]. apply DecimalZ.to_int_inj. congruence.
Qed.

Lemma String_of_Z_head n r :
  ∃ c s, String_of_Z n +:+ r = String c s
         ∧ (bool_decide (c = "-"%char) || isDigit c = true).
Proof.
  unfold String_of_Z, NilZero.string_of_int.
  pose proof (to_int_digits n) as Hn.
  destruct (Z.to_int n) as [d|d]; rewrite string_of_uint_nonNil by done.
  - destruct (digits_head d r Hn) as (c & s & -> & Hd).
    exists c, s. split; [done|]. rewrite Hd. apply orb_true_r.
  - rewrite append_String. by eexists _, _.
Qed.

(** ** Filter values *)

Lemma FilterValue_nested_ind (P : FilterValue → Prop) :
  P JNull → (∀ b, P (JBool b)) → (∀ n, P (JNumber n)) →
  (∀ s, P (JString s)) → (∀ l, Forall P l → P (JArray l)) →
  ∀ v, P v.
Proof.
  intros HN HB HZ HS HA.
  exact (fix go (v : FilterValue) : P v :=
           match v with
           | JNull => HN
           | JBool b => HB b
           | JNumber n => HZ n
           | JString s => HS s
           | JArray l =>
               HA l ((fix all (l : list FilterValue) : Forall P l :=
                        match l with
                        | [] => Forall_nil P
                        | x :: l' => Forall_cons P x l' (go x) (all l')
                        end) l)
           end).
Qed.

Lemma map_list_fmap {A B} (f : A → B) (l : list A) : List.map f l = f <$> l.
Proof. induction l as [|x l IH]; [done|]. simpl. by rewrite IH. Qed.

Lemma JSON_array_app items r :
  JSON_array items +:+ r = String "[" (join "," items +:+ String "]" r).
Proof. unfold JSON_array. by autorewrite with json. Qed.

Lemma JSON_object_app members r :
  JSON_object members +:+ r = String "{" (join "," members +:+ String "}" r).
Proof. unfold JSON_object. by autorewrite with json. Qed.

Lemma JSON_member_app key v r :
  JSON_member key v +:+ r = JSON_stringify_string key +:+ String ":" (v +:+ r).
Proof. unfold JSON_member. by autorewrite with json. Qed.

Lemma JSON_value_head v r :
  ∃ c s, JSON_stringify_value v +:+ r = String c s ∧ valueHead v c = true.
Proof.
  destruct v as [|[]|n|s|l]; cbn [JSON_stringify_value valueHead].
  - unfold JSON_stringify_bool. autorewrite with json. by eexists _, _.
  - unfold JSON_stringify_bool. autorewrite with json. by eexists _, _.
  - unfold JSON_stringify_bool. autorewrite with json. by eexists _, _.
  - apply String_of_Z_head.
  - rewrite JSON_stringify_string_app. eexists _, _. split; [done|].
    by apply bool_decide_eq_true_2.
  - rewrite JSON_array_app. by eexists _, _.
Qed.

Lemma valueHead_kind v w c :
  valueHead v c = true → valueHead w c = true → sameKind v w.
Proof.
  destruct v as [|[]|n|s|l], w as [|[]|n'|s'|l']; simpl; try done;
    destruct c as [[] [] [] [] [] [] [] []]; vm_compute; congruence.
Qed.

Lemma valueHead_item v c :
  valueHead v c = true →
  c ≠ "]"%char ∧ c ≠ "}"%char ∧ c ≠ ","%char.
Proof.
  intros Hc. repeat split; intros ->;
    destruct v as [|[]|n|s|l]; vm_compute in Hc; discriminate.
Qed.

Lemma afterItem_digitFree close r :
  isDigit close = false → afterItem close r → digitFree r.
Proof. intros Hclose [r' [->| ->]]; simpl; done. Qed.

Lemma JSON_value_kind v w r1 r2 :
  JSON_stringify_value v +:+ r1 = JSON_stringify_value w +:+ r2 →
  sameKind v w.
Proof.
  intros Heq.
  destruct (JSON_value_head v r1) as (c & t & Hc & Hv).
  destruct (JSON_value_head w r2) as (c' & t' & Hc' & Hw).
  rewrite Hc, Hc' in Heq. injection Heq as <- _.
  exact (valueHead_kind _ _ _ Hv Hw).
Qed.

Lemma JSON_stringify_value_inj v :
  ∀ w r1 r2, digitFree r1 → digitFree r2 →
    JSON_stringify_value v +:+ r1 = JSON_stringify_value w +:+ r2 →
    v = w ∧ r1 = r2.
Proof.
  induction v as [|b|n|s|l IH] using FilterValue_nested_ind;
    intros w r1 r2 H1 H2 Heq.
  all: pose proof (JSON_value_kind _ _ _ _ Heq) as Hkind.
  all: destruct w as [|b'|n'|s'|l']; try done.
  - cbn [JSON_stringify_value] in Heq. autorewrite with json in Heq.
    by injection Heq as ->.
  - cbn [JSON_stringify_value] in Heq.
    by apply JSON_stringify_bool_inj in Heq as [-> ->].
  - cbn [JSON_stringify_value] in Heq.
    by apply String_of_Z_inj in Heq as [-> ->].
  - cbn [JSON_stringify_value] in Heq.
    by apply JSON_stringify_string_inj in Heq as [-> ->].
  - cbn [JSON_stringify_value] in Heq.
    rewrite !JSON_array_app, !map_list_fmap in Heq. injection Heq as Heq.
    apply join_inj in Heq as [-> ->]; [done|done| |].
    + eapply list.Forall_impl; [exact IH|].
      intros x Hx y s1 s2 Hs1 Hs2. apply Hx.
      * by apply (afterItem_digitFree "]").
      * by apply (afterItem_digitFree "]").
    + intros y s. destruct (JSON_value_head y s) as (c & t & Hc & Hy).
      exists c, t. split; [done|]. by apply (valueHead_item y).
Qed.

(** ** The entries of the slices *)

Lemma String_inj c x d y : String c x = String d y → c = d ∧ x = y.
Proof. by intros [= -> ->]. Qed.

Lemma JSON_stringify_sort_inj a b r1 r2 :
  JSON_stringify_sort a +:+ r1 = JSON_stringify_sort b +:+ r2 →
  a = b ∧ r1 = r2.
Proof.
  unfold JSON_stringify_sort. rewrite !JSON_object_app. cbn [join].
  rewrite !string_append_assoc, !JSON_member_app. intros Heq.
  apply String_inj in Heq as [_ Heq].
  apply JSON_stringify_string_inj in Heq as [_ Heq].
  apply String_inj in Heq as [_ Heq].
  apply JSON_stringify_string_inj in Heq as [Hid Heq].
  rewrite !append_String, !append_Empty in Heq.
  apply String_inj in Heq as [_ Heq].
  apply JSON_stringify_string_inj in Heq as [_ Heq].
  apply String_inj in Heq as [_ Heq].
  apply JSON_stringify_bool_inj in Heq as [Hdesc Heq].
  apply String_inj in Heq as [_ ->].
  destruct a, b; simpl in *. by subst.
Qed.

Lemma JSON_stringify_filter_inj a b r1 r2 :
  JSON_stringify_filter a +:+ r1 = JSON_stringify_filter b +:+ r2 →
  a = b ∧ r1 = r2.
Proof.
  unfold JSON_stringify_filter. rewrite !JSON_object_app. cbn [join].
  rewrite !string_append_assoc, !JSON_member_app. intros Heq.
  apply String_inj in Heq as [_ Heq].
  apply JSON_stringify_string_inj in Heq as [_ Heq].
  apply String_inj in Heq as [_ Heq].
  apply JSON_stringify_string_inj in Heq as [Hid Heq].
  rewrite !append_String, !append_Empty in Heq.
  apply String_inj in Heq as [_ Heq].
  apply JSON_stringify_string_inj in Heq as [_ Heq].
  apply String_inj in Heq as [_ Heq].
  apply JSON_stringify_value_inj in Heq as [Hvalue Heq]; [|done..].
  apply String_inj in Heq as [_ ->].
  destruct a, b; simpl in *. by subst.
Qed.

Lemma JSON_stringify_row_inj a b r1 r2 :
  JSON_stringify_row a +:+ r1 = JSON_stringify_row b +:+ r2 →
  a = b ∧ r1 = r2.
Proof.
  unfold JSON_stringify_row. rewrite !JSON_member_app. intros Heq.
  apply JSON_stringify_string_inj in Heq as [Hk Heq].
  apply String_inj in Heq as [_ Heq].
  apply JSON_stringify_bool_inj in Heq as [Hb ->].
  destruct a, b; simpl in *. by subst.
Qed.

Lemma joined_inj {A} (print : A → string) (close : ascii) (l1 l2 : list A) :
  close ≠ ","%char →
  (∀ x y s1 s2, print x +:+ s1 = print y +:+ s2 → x = y ∧ s1 = s2) →
  (∀ y s, ∃ c s', print y +:+ s = String c s' ∧ c ≠ close) →
  join "," (print <$> l1) +:+ String close ""
  = join "," (print <$> l2) +:+ String close "" →
  l1 = l2.
Proof.
  intros Hclose Hinj Hhead Heq.
  apply join_inj in Heq as [-> _]; [done..| |done].
  apply list.Forall_forall. intros x _ y s1 s2 _ _. apply Hinj.
Qed.

(** ** The slices *)

Lemma JSON_stringify_columnOrder_inj l1 l2 :
  JSON_stringify_columnOrder l1 = JSON_stringify_columnOrder l2 → l1 = l2.
Proof.
  unfold JSON_stringify_columnOrder, JSON_array.
  rewrite !map_list_fmap, !append_String, !append_Empty. intros Heq.
  apply String_inj in Heq as [_ Heq].
  apply joined_inj in Heq; [done..| |].
  - apply JSON_stringify_string_inj.
  - intros y s. rewrite JSON_stringify_string_app. by eexists _, _.
Qed.

Lemma JSON_stringify_sorting_inj l1 l2 :
  JSON_stringify_sorting l1 = JSON_stringify_sorting l2 → l1 = l2.
Proof.
  unfold JSON_stringify_sorting, JSON_array.
  rewrite !map_list_fmap, !append_String, !append_Empty. intros Heq.
  apply String_inj in Heq as [_ Heq].
  apply (joined_inj JSON_stringify_sort) in Heq; [done..| |].
  - apply JSON_stringify_sort_inj.
  - intros y s. unfold JSON_stringify_sort. rewrite JSON_object_app.
    by eexists _, _.
Qed.

Lemma JSON_stringify_columnFilters_inj l1 l2 :
  JSON_stringify_columnFilters l1 = JSON_stringify_columnFilters l2 →
  l1 = l2.
Proof.
  unfold JSON_stringify_columnFilters, JSON_array.
  rewrite !map_list_fmap, !append_String, !append_Empty. intros Heq.
  apply String_inj in Heq as [_ Heq].
  apply (joined_inj JSON_stringify_filter) in Heq; [done..| |].
  - apply JSON_stringify_filter_inj.
  - intros y s. unfold JSON_stringify_filter. rewrite JSON_object_app.
    by eexists _, _.
Qed.

Lemma JSON_stringify_rowSelection_inj r1 r2 :
  JSON_stringify_rowSelection r1 = JSON_stringify_rowSelection r2 → r1 = r2.
Proof.
  unfold JSON_stringify_rowSelection, JSON_object.
  rewrite !map_list_fmap, !append_String, !append_Empty. intros Heq.
  apply String_inj in Heq as [_ Heq].
  apply (joined_inj JSON_stringify_row) in Heq; [done..| |].
  - apply JSON_stringify_row_inj.
  - intros y s. unfold JSON_stringify_row.
    rewrite JSON_member_app, JSON_stringify_string_app. by eexists _, _.
Qed.

Lemma unchanged_sameSlice sl oldState newState :
  changed sl oldState newState = false → sameSlice sl newState oldState.
Proof.
  destruct sl; simpl; rewrite ?orb_false_iff;
    repeat rewrite bool_decide_eq_false.
  - intros Heq. by destruct (decide (globalFilter newState
                                     = globalFilter oldState)).
  - intros Heq. apply JSON_stringify_sorting_inj.
    by destruct (decide (JSON_stringify_sorting (sorting newState)
                         = JSON_stringify_sorting (sorting oldState))).
  - intros [Hi Hs].
    destruct (pagination newState) as [i s], (pagination oldState) as [i' s'].
    simpl in *. f_equal.
    + by destruct (decide (i = i')).
    + by destruct (decide (s = s')).
  - intros Heq. apply JSON_stringify_columnFilters_inj.
    by destruct (decide
                   (JSON_stringify_columnFilters (columnFilters newState)
                    = JSON_stringify_columnFilters (columnFilters oldState))).
  - intros Heq. apply JSON_stringify_columnOrder_inj.
    by destruct (decide (JSON_stringify_columnOrder (columnOrder newState)
                         = JSON_stringify_columnOrder (columnOrder oldState))).
  - intros Heq. apply JSON_stringify_rowSelection_inj.
    by destruct (decide
                   (JSON_stringify_rowSelection (rowSelection newState)
                    = JSON_stringify_rowSelection (rowSelection oldState))).
Qed.


(** * The query stays in sync with the state *)

Lemma defaultEncoded_sameSlice {codec : DefaultEncoders} options a b p :
  sameSlice (sliceOf p) a b →
  defaultEncoded options a p = defaultEncoded options b p.
Proof. destruct p; simpl; by intros ->. Qed.

Lemma NoDup_fmap_inj {A B} (f : A → B) (l : list A) x y :
  NoDup (f <$> l) → x ∈ l → y ∈ l → f x = f y → x = y.
Proof.
  induction l as [|z l IH]; [by intros _ ?%elem_of_nil|].
  rewrite fmap_cons.
  intros [Hz Hl]%list.NoDup_cons [->|Hx]%elem_of_cons [->|Hy]%elem_of_cons Hf;
    [done| | |by apply IH].
  - destruct Hz. rewrite Hf. by apply list_elem_of_fmap_2.
  - destruct Hz. rewrite <- Hf. by apply list_elem_of_fmap_2.
Qed.

Lemma param_in_allParams p : p ∈ allParams.
Proof. apply list_elem_of_In. destruct p; simpl; tauto. Qed.

Lemma defaultCodecsOnly_overrideResult options newState sl :
  defaultCodecsOnly options → overrideResult options newState sl = None.
Proof.
  intros (H1 & H2 & H3 & H4 & H5 & H6).
  destruct sl; simpl; by rewrite ?H1, ?H2, ?H3, ?H4, ?H5, ?H6.
Qed.

Section MergedParameters.
Context {codec : DefaultEncoders} {serializer : QuerySerializer}.
Variables (router : Router.t) (options : option Options).
Variables (oldState newState : State).
Hypothesis Hdefault : defaultCodecsOnly options.
Hypothesis Hnames : distinctNames options.

Lemma defaultCodecs_return : encodersReturn options oldState newState.
Proof.
  intros sl e _. by rewrite (defaultCodecsOnly_overrideResult _ _ _ Hdefault).
Qed.

Lemma claims_own_name p p' :
  claims options oldState newState p' (paramName options p) →
  p' = p ∧ changed (sliceOf p) oldState newState = true.
Proof.
  intros [Hch Hname].
  rewrite (defaultCodecsOnly_overrideResult _ _ _ Hdefault) in Hname.
  assert (p' = p) as ->; [|done].
  apply (NoDup_fmap_inj (paramName options) allParams);
    auto using param_in_allParams.
Qed.

(** Each of the seven parameters holds the encoding of the new state when
    its slice changed, and the router's entry when it did not. *)
Lemma merged_parameter h p :
  query h = query (mergedLocals router options oldState newState) →
  updates h = updates (mergedLocals router options oldState newState) →
  cleanQuery h !! paramName options p
  = if changed (sliceOf p) oldState newState
    then entry (defaultEncoded options newState p)
    else stripUndefined (Router.query router) !! paramName options p.
Proof.
  intros Hq Hu.
  pose proof (proj1 (encodersReturn_firstThrow _ _ _) defaultCodecs_return)
    as Hret.
  destruct (changed (sliceOf p) oldState newState) eqn:Hch.
  - pose proof (defaultCodecsOnly_overrideResult options newState
                  (sliceOf p) Hdefault) as Hov.
    assert (∀ p', p' ≠ p →
              ¬ claims options oldState newState p' (paramName options p))
      as Hothers.
    { intros p' Hne Hp'. by destruct (claims_own_name _ _ Hp'). }
    destruct (isDefined (defaultEncoded options newState p)) eqn:Hdef.
    + destruct (defined_written router _ _ _ h p Hq Hu Hret Hch Hov Hdef
                  Hothers) as [_ ->].
      unfold entry. by rewrite Hdef.
    + assert (defaultEncoded options newState p = QUndefined) as Henc
        by by destruct (defaultEncoded options newState p).
      destruct (undefined_deleted router _ _ _ h p Hq Hu Hret Hch Hov Henc
                  Hothers) as [_ ->].
      unfold entry. by rewrite Hdef.
  - apply (unclaimed_preserved router options oldState newState h _ Hq Hu).
    intros p' Hp'. destruct (claims_own_name _ _ Hp') as [_ Hch']. congruence.
Qed.

Lemma other_keys_kept h k :
  query h = query (mergedLocals router options oldState newState) →
  updates h = updates (mergedLocals router options oldState newState) →
  k ∉ paramName options <$> allParams →
  cleanQuery h !! k = stripUndefined (Router.query router) !! k.
Proof.
  intros Hq Hu Hk.
  apply (unclaimed_preserved router options oldState newState h k Hq Hu).
  intros p [_ Hname].
  rewrite (defaultCodecsOnly_overrideResult _ _ _ Hdefault) in Hname.
  apply Hk. rewrite <- Hname. apply list_elem_of_fmap_2, param_in_allParams.
Qed.

End MergedParameters.

(** X7.  With the default codecs for every slice and seven distinct
    parameter names, one run of the updater carries every changed slice:
    it navigates once, to a query in which each parameter of a changed
    slice is the encoding of the new state (absent when that is
    undefined), each parameter of an unchanged slice is as in the router's
    query, and so is every other key. *)
Theorem update_merges_changed_slices :
  ∀ (codec : DefaultEncoders) (serializer : QuerySerializer)
    router options oldState newState,
    defaultCodecsOnly options → distinctNames options →
    ∃ h, run (update router options oldState newState) = (Normal tt, h)
         ∧ navigations (trace h) = [navigateUrl router (cleanQuery h)]
         ∧ (∀ p, cleanQuery h !! paramName options p
                 = if changed (sliceOf p) oldState newState
                   then entry (defaultEncoded options newState p)
                   else stripUndefined (Router.query router)
                        !! paramName options p)
         ∧ ∀ k, k ∉ paramName options <$> allParams →
                cleanQuery h !! k
                = stripUndefined (Router.query router) !! k.
Proof.
  intros codec serializer router options oldState newState Hdefault Hnames.
  pose proof (defaultCodecs_return options oldState newState Hdefault) as Hret.
  destruct (update_completes router _ _ _ Hret) as (h & Hrun & Hq & Hu & Htr).
  exists h. split; [done|]. split; [by eapply navigations_completed|]. split.
  - intros p. by eapply merged_parameter.
  - intros k. by eapply other_keys_kept.
Qed.

Lemma update_merges_changed_slices_witness :
  ∃ h, Example.update (Example.router Example.queryInitial) None
         Example.initialState
         (Example.setColumnFilters Example.nameIsJohn
            (Example.setGlobalFilter (Some "test") Example.initialState))
       = (Normal tt, h)
       ∧ cleanQuery h !! "globalFilter" = Some (QString "test")
       ∧ cleanQuery h !! "columnFilters" = Some (QString "name.%22John%22").
Proof.
  destruct (update_merges_changed_slices
              (Codec.encoders (parameters := standardParameters))
              standardSerializer (Example.router Example.queryInitial) None
              Example.initialState
              (Example.setColumnFilters Example.nameIsJohn
                 (Example.setGlobalFilter (Some "test") Example.initialState)))
    as (h & Hrun & _ & Hparams & _).
  - repeat split.
  - apply (bool_decide_unpack _). vm_compute. exact I.
  - exists h. split; [exact Hrun|]. split.
    + exact (Hparams PGlobalFilter).
    + exact (Hparams PColumnFilters).
Defined.

(** X8.  With the default codecs for every slice and seven distinct
    parameter names, the updater keeps the query in sync with the state:
    if the router's query holds the encoding of the old state, the
    navigated query holds the encoding of the new state under the seven
    names, and every other key keeps its entry. *)
Theorem update_keeps_query_in_sync :
  ∀ (codec : DefaultEncoders) (serializer : QuerySerializer)
    router options oldState newState,
    defaultCodecsOnly options → distinctNames options →
    inSync options (Router.query router) oldState →
    ∃ h, run (update router options oldState newState) = (Normal tt, h)
         ∧ navigations (trace h) = [navigateUrl router (cleanQuery h)]
         ∧ inSync options (cleanQuery h) newState
         ∧ ∀ k, k ∉ paramName options <$> allParams →
                cleanQuery h !! k
                = stripUndefined (Router.query router) !! k.
Proof.
  intros codec serializer router options oldState newState
    Hdefault Hnames Hsync.
  pose proof (defaultCodecs_return options oldState newState Hdefault) as Hret.
  destruct (update_completes router _ _ _ Hret) as (h & Hrun & Hq & Hu & Htr).
  exists h. split; [done|]. split; [by eapply navigations_completed|]. split.
  - intros p. rewrite stripUndefined_cleanQuery.
    rewrite (merged_parameter router options oldState newState
               Hdefault Hnames h p Hq Hu).
    destruct (changed (sliceOf p) oldState newState) eqn:Hch; [done|].
    rewrite Hsync. f_equal. symmetry.
    apply defaultEncoded_sameSlice. by apply unchanged_sameSlice.
  - intros k. by eapply other_keys_kept.
Qed.

Lemma update_keeps_query_in_sync_witness :
  ∃ h, Example.update (Example.router Example.queryInitial) None
         Example.filteredByInitial Example.busyState
       = (Normal tt, h)
       ∧ inSync (codec := Codec.encoders (parameters := standardParameters))
           None (cleanQuery h) Example.busyState.
Proof.
  destruct (update_keeps_query_in_sync
              (Codec.encoders (parameters := standardParameters))
              standardSerializer (Example.router Example.queryInitial) None
              Example.filteredByInitial Example.busyState)
    as (h & Hrun & _ & Hsync & _).
  - repeat split.
  - apply (bool_decide_unpack _). vm_compute. exact I.
  - intros p. destruct p; vm_compute; reflexivity.
  - exists h. split; [exact Hrun|exact Hsync].
Defined.

(** * What the updater mutates, and when *)

Section TraceShape.
Context {codec : DefaultEncoders} {serializer : QuerySerializer}.
Variables (router : Router.t) (options : option Options).
Variables (oldState newState : State).

Lemma trace_of_run :
  ∀ op, isMutation op = true →
        op ∈ trace (run (update router options oldState newState)).2 →
        op ∈ plannedOps options oldState newState.
Proof.
  intros op Hmut. rewrite update_run.
  destruct (firstThrow options oldState newState); simpl.
  - by rewrite trace_mergedLocals.
  - rewrite trace_mergedLocals. intros [?|Hnav]%elem_of_app; [done|].
    apply list_elem_of_singleton in Hnav. by subst.
Qed.


End TraceShape.


(** X9.  Every mutation in the trace of the updater, whether it returns
    or throws, belongs to a changed slice: an assignment merges the object
    that the slice's own encoder returned; a write sets a parameter of a
    slice without encoder of its own to its defined default encoding; a
    delete removes such a parameter whose default encoding is undefined.
    The updater never writes an undefined value itself and never deletes
    a key on behalf of a slice that has an encoder of its own. *)
Theorem mutations_justified :
  ∀ (codec : DefaultEncoders) (serializer : QuerySerializer)
    router options oldState newState op,
    op ∈ trace (run (update router options oldState newState)).2 →
    match op with
    | OpAssign source =>
        ∃ sl, changed sl oldState newState = true
              ∧ overrideResult options newState sl = Some (Normal source)
    | OpSet k v =>
        ∃ p, changed (sliceOf p) oldState newState = true
             ∧ overrideResult options newState (sliceOf p) = None
             ∧ k = paramName options p
             ∧ v = defaultEncoded options newState p
             ∧ isDefined v = true
    | OpDelete k =>
        ∃ p, changed (sliceOf p) oldState newState = true
             ∧ overrideResult options newState (sliceOf p) = None
             ∧ k = paramName options p
             ∧ defaultEncoded options newState p = QUndefined
    | OpNavigate url =>
        firstThrow options oldState newState = None
    end.
Proof.
  intros codec serializer router options oldState newState op Hin.
  destruct (isMutation op) eqn:Hmut.
  - apply trace_of_run in Hin; [|done].
    destruct (elem_of_plannedOps _ _ _ _ Hin) as (sl & ops & Hsl & Hop).
    destruct (elem_of_sliceOps _ _ _ _ _ _ Hsl Hop)
      as [Hch [(source & Hov & ->)|(Hov & p & <- & ->)]]; [by eauto|].
    unfold writeOp.
    destruct (isDefined (defaultEncoded options newState p)) eqn:Hdef.
    + by eauto 10.
    + exists p. repeat split; try done.
      by destruct (defaultEncoded options newState p).
  - destruct op; try discriminate Hmut.
    rewrite update_run in Hin.
    destruct (firstThrow options oldState newState); [|done].
    simpl in Hin. rewrite trace_mergedLocals in Hin.
    destruct (elem_of_plannedOps _ _ _ _ Hin) as (sl & ops & Hsl & Hop).
    destruct (elem_of_sliceOps _ _ _ _ _ _ Hsl Hop)
      as [_ [(source & _ & Heq)|(_ & p & _ & Heq)]]; [done|].
    unfold writeOp in Heq. by destruct (isDefined _).
Qed.

Lemma mutations_justified_witness :
  ∃ p, changed (sliceOf p) Example.filteredByTestAndJohn
         Example.initialState = true
       ∧ overrideResult None Example.initialState (sliceOf p) = None
       ∧ "columnFilters" = paramName None p
       ∧ defaultEncoded
           (codec := Codec.encoders (parameters := standardParameters))
           None Example.initialState p = QUndefined.
Proof.
  apply (mutations_justified
           (Codec.encoders (parameters := standardParameters))
           standardSerializer (Example.router Example.queryTestAndJohn) None
           Example.filteredByTestAndJohn Example.initialState
           (OpDelete "columnFilters")).
  vm_compute. apply list_elem_of_In. simpl. tauto.
Defined.



(** * The batched updater: the merge, parameter by parameter *)

Section MergeLemmas.
Context {codec : DefaultEncoders} {serializer : QuerySerializer}.
Variables (router : Router.t) (options : option Options).
Variables (oldState newState : State).

(** The navigation at the end of the trace writes and deletes nothing. *)
Lemma lastWrite_completed h k :
  trace h = plannedOps options oldState newState
            ++ [OpNavigate (navigateUrl router (cleanQuery h))] →
  lastWrite k (trace h) = lastWrite k (plannedOps options oldState newState).
Proof. intros ->. by rewrite lastWrite_snoc. Qed.

Lemma deleted_completed h k :
  trace h = plannedOps options oldState newState
            ++ [OpNavigate (navigateUrl router (cleanQuery h))] →
  OpDelete k ∈ trace h ↔ OpDelete k ∈ plannedOps options oldState newState.
Proof.
  intros ->. rewrite elem_of_app, list_elem_of_singleton.
  split; [intros [?|?]; [done|discriminate]|by left].
Qed.

(** The mutation of a parameter that the default codec handles. *)
Lemma default_write_planned p :
  firstThrow options oldState newState = None →
  changed (sliceOf p) oldState newState = true →
  overrideResult options newState (sliceOf p) = None →
  writeOp (paramName options p) (defaultEncoded options newState p)
  ∈ plannedOps options oldState newState.
Proof.
  intros Hret Hch Hov.
  eapply (plannedOps_complete _ _ _ (sliceOf p)); [done| |].
  - unfold sliceOps. by rewrite Hch, Hov.
  - apply list_elem_of_fmap. exists p. split; [done|apply paramsOf_sliceOf].
Qed.


End MergeLemmas.

(** C2, as amended.  When no encoder throws, a key that no changed slice
    claims (through the name of a parameter of its own or through the
    object its encoder returns) keeps in the navigated query the entry it
    has in the router's query; so does, in particular, a parameter of a
    slice that the change test of the updater finds unchanged, when no
    other slice claims its name.  With only [globalFilter=initial] in the
    query and a change of the column filters to [name = "John"], the
    navigated query holds [globalFilter=initial] and
    [columnFilters=name.%22John%22]. *)
Theorem unchanged_parameters_preserved :
  (∀ (codec : DefaultEncoders) (serializer : QuerySerializer)
     router options oldState newState k,
     encodersReturn options oldState newState →
     (∀ p, ¬ claims options oldState newState p k) →
     ∃ h, run (update router options oldState newState) = (Normal tt, h)
          ∧ navigations (trace h) = [navigateUrl router (cleanQuery h)]
          ∧ cleanQuery h !! k = stripUndefined (Router.query router) !! k)
  ∧ (∀ (codec : DefaultEncoders) (serializer : QuerySerializer)
       router options oldState newState p,
       encodersReturn options oldState newState →
       changed (sliceOf p) oldState newState = false →
       (∀ p', sliceOf p' ≠ sliceOf p →
              ¬ claims options oldState newState p' (paramName options p)) →
       ∃ h, run (update router options oldState newState) = (Normal tt, h)
            ∧ navigations (trace h) = [navigateUrl router (cleanQuery h)]
            ∧ cleanQuery h !! paramName options p
              = stripUndefined (Router.query router) !! paramName options p)
  ∧ (∀ serializer : QuerySerializer,
       ∃ h, run (update
                   (codec := Codec.encoders (parameters := standardParameters))
                   (Example.router Example.queryInitial) None
                   Example.filteredByInitial
                   (Example.setColumnFilters Example.nameIsJohn
                      Example.filteredByInitial))
            = (Normal tt, h)
            ∧ cleanQuery h
              = {[ "globalFilter" := QString "initial";
                   "columnFilters" := QString "name.%22John%22" ]}).
Proof.
  assert (∀ (codec : DefaultEncoders) (serializer : QuerySerializer)
            router options oldState newState k,
            encodersReturn options oldState newState →
            (∀ p, ¬ claims options oldState newState p k) →
            ∃ h, run (update router options oldState newState) = (Normal tt, h)
                 ∧ navigations (trace h) = [navigateUrl router (cleanQuery h)]
                 ∧ cleanQuery h !! k
                   = stripUndefined (Router.query router) !! k) as Hframe.
  { intros codec serializer router options oldState newState k Hret Hno.
    destruct (update_completes router _ _ _ Hret) as (h & Hrun & Hq & Hu & Htr).
    exists h. split; [done|]. split; [by eapply navigations_completed|].
    by eapply unclaimed_preserved. }
  split; [exact Hframe|split].
  - intros codec serializer router options oldState newState p Hret Hsame Hno.
    apply Hframe; [done|]. intros p' [Hch Hov].
    destruct (decide (sliceOf p' = sliceOf p)) as [Heq|Hne].
    + rewrite Heq, Hsame in Hch. done.
    + by apply (Hno p' Hne).
  - intros serializer.
    eexists. split; [vm_compute; reflexivity|]. vm_compute. reflexivity.
Qed.

(** C2 as stated fails.  The sorting changes and its encoder returns an
    object with the key [globalFilter]: the global filter is the same in
    both states, yet its parameter goes from [initial] to [hijacked].
    A row selection with the same rows in another order is a change for
    the updater, which rewrites its parameter.  And when the encoder of a
    changed slice throws, there is no navigated query for the parameter
    of an unchanged slice to appear in. *)
Lemma override_rewrites_unchanged_parameter :
  (let oldState := Example.filteredByInitial in
   let newState := Example.setSorting Example.sortedByName oldState in
   let router := Example.router Example.queryInitial in
   globalFilter newState = globalFilter oldState
   ∧ Router.query router !! "globalFilter" = Some (QString "initial")
   ∧ ∃ h, Example.update router Example.sortingWritesGlobalFilter
            oldState newState
          = (Normal tt, h)
          ∧ cleanQuery h !! "globalFilter" = Some (QString "hijacked"))
  ∧ (let oldState :=
       Example.setRowSelection [("a", true); ("b", true)]
         Example.initialState in
     let newState :=
       Example.setRowSelection [("b", true); ("a", true)]
         Example.initialState in
     let router := Example.router {[ "rowSelection" := QString "a,b" ]} in
     (list_to_map (rowSelection newState) : gmap string bool)
     = list_to_map (rowSelection oldState)
     ∧ changed RowSelection oldState newState = true
     ∧ ∃ h, Example.update router None oldState newState = (Normal tt, h)
            ∧ cleanQuery h !! "rowSelection" = Some (QString "b,a"))
  ∧ (let oldState :=
       Example.setSorting Example.sortedByName Example.initialState in
     let newState := Example.setGlobalFilter (Some "a") oldState in
     let router := Example.router {[ "sorting" := QString "name.desc" ]} in
     let r := Example.update router Example.throwingEncoder
                oldState newState in
     sorting newState = sorting oldState
     ∧ r.1 = Throw (Error "boom") ∧ navigations (trace r.2) = []).
Proof.
  split; [|split].
  - split; [reflexivity|]. split; [vm_compute; reflexivity|].
    eexists. split; [vm_compute; reflexivity|]. vm_compute. reflexivity.
  - split; [vm_compute; reflexivity|]. split; [vm_compute; reflexivity|].
    eexists. split; [vm_compute; reflexivity|]. vm_compute. reflexivity.
  - split; [reflexivity|]. split; vm_compute; reflexivity.
Qed.

Lemma unchanged_parameters_preserved_witness :
  ∃ h, Example.update (Example.router Example.queryInitial) None
         Example.filteredByInitial
         (Example.setColumnFilters Example.nameIsJohn
            Example.filteredByInitial)
       = (Normal tt, h)
       ∧ cleanQuery h !! "globalFilter" = Some (QString "initial").
Proof.
  destruct (proj1 (proj2 unchanged_parameters_preserved)
              (Codec.encoders (parameters := standardParameters))
              standardSerializer (Example.router Example.queryInitial) None
              Example.filteredByInitial
              (Example.setColumnFilters Example.nameIsJohn
                 Example.filteredByInitial) PGlobalFilter)
    as (h & Hrun & _ & Hkey).
  - intros sl e _. destruct sl; discriminate.
  - reflexivity.
  - intros p' Hne [Hch Hname]. destruct p'; vm_compute in Hch, Hname;
      first [discriminate | by apply Hne].
  - exists h. split; [exact Hrun|].
    etrans; [exact Hkey|]. vm_compute. reflexivity.
Defined.

(** C3, as amended.  When no encoder throws, a parameter of a changed
    slice that the default codec encodes to [undefined] is deleted from
    the copy of the query; it is absent from the navigated query exactly
    when the last write to its key, if there is one, writes [undefined],
    and so whenever no other parameter claims its name.  From
    [globalFilter=test] and [columnFilters=name.%22John%22], clearing both
    slices navigates to a query with neither. *)
Theorem undefined_encoding_deletes_parameter :
  (∀ (codec : DefaultEncoders) (serializer : QuerySerializer)
     router options oldState newState p,
     encodersReturn options oldState newState →
     changed (sliceOf p) oldState newState = true →
     overrideResult options newState (sliceOf p) = None →
     defaultEncoded options newState p = QUndefined →
     ∃ h, run (update router options oldState newState) = (Normal tt, h)
          ∧ navigations (trace h) = [navigateUrl router (cleanQuery h)]
          ∧ OpDelete (paramName options p) ∈ trace h
          ∧ query h !! paramName options p = None
          ∧ (cleanQuery h !! paramName options p = None
             ↔ ∀ v, lastWrite (paramName options p) (trace h) = Some v →
                    v = QUndefined)
          ∧ ((∀ p', p' ≠ p →
                    ¬ claims options oldState newState p'
                        (paramName options p)) →
             cleanQuery h !! paramName options p = None))
  ∧ (∀ serializer : QuerySerializer,
       ∃ h, run (update
                   (codec := Codec.encoders (parameters := standardParameters))
                   (Example.router Example.queryTestAndJohn) None
                   Example.filteredByTestAndJohn Example.initialState)
            = (Normal tt, h)
            ∧ OpDelete "globalFilter" ∈ trace h
            ∧ OpDelete "columnFilters" ∈ trace h
            ∧ cleanQuery h = ∅).
Proof.
  split.
  - intros codec serializer router options oldState newState p
      Hret Hch Hov Henc.
    destruct (update_completes router _ _ _ Hret) as (h & Hrun & Hq & Hu & Htr).
    apply encodersReturn_firstThrow in Hret.
    pose proof (default_write_planned options oldState newState p Hret Hch Hov)
      as Hdel.
    rewrite Henc in Hdel. change (writeOp _ QUndefined) with
      (OpDelete (paramName options p)) in Hdel.
    exists h. split; [done|]. split; [by eapply navigations_completed|].
    split; [by apply (deleted_completed router options oldState newState)|].
    split; [rewrite Hq; by apply query_runOps_deleted|].
    rewrite (cleanQuery_planned router options oldState newState h _ Hq Hu).
    rewrite (lastWrite_completed router options oldState newState h _ Htr).
    split.
    + destruct (lastWrite _ _) as [v|].
      * unfold entry. split.
        -- intros Hnone v' [= <-]. by destruct v.
        -- intros Hv. by rewrite (Hv v eq_refl).
      * destruct (decide _); [|done]. split; [|done]. by intros _ v.
    + intros Hothers.
      pose proof (undefined_deleted router options oldState newState h p
                    Hq Hu Hret Hch Hov Henc Hothers) as [_ Hkey].
      by rewrite (cleanQuery_planned router options oldState newState h _ Hq Hu)
        in Hkey.
  - intros serializer. eexists. split; [vm_compute; reflexivity|].
    split; [|split].
    + apply list_elem_of_In. simpl. tauto.
    + apply list_elem_of_In. simpl. tauto.
    + vm_compute. reflexivity.
Qed.

(** C3 as stated fails.  The sorting is cleared and its default encoding
    is [undefined], so [sorting] is deleted from the copy of the query;
    but the encoder of the global filter, which changed too, returned an
    object with the key [sorting], and the merge puts it back.  And when
    that encoder throws instead, the updater ends before the sorting is
    looked at: nothing is deleted and nothing is navigated to. *)
Lemma deleted_parameter_written_by_override :
  let oldState :=
    Example.setSorting Example.sortedByName Example.initialState in
  let newState := Example.setGlobalFilter (Some "a") Example.initialState in
  let router := Example.router {[ "sorting" := QString "name.desc" ]} in
  changed Sorting oldState newState = true
  ∧ overrideResult Example.globalFilterWritesSorting newState Sorting = None
  ∧ defaultEncoded
      (codec := Codec.encoders (parameters := standardParameters))
      Example.globalFilterWritesSorting newState PSorting
    = QUndefined
  ∧ (∃ h, Example.update router Example.globalFilterWritesSorting
            oldState newState
          = (Normal tt, h)
          ∧ OpDelete "sorting" ∈ trace h
          ∧ cleanQuery h !! "sorting" = Some (QString "x"))
  ∧ (let r := Example.update router Example.throwingEncoder
                oldState newState in
     r.1 = Throw (Error "boom") ∧ trace r.2 = []
     ∧ query r.2 !! "sorting" = Some (QString "name.desc")).
Proof.
  split; [vm_compute; reflexivity|]. split; [reflexivity|].
  split; [vm_compute; reflexivity|]. split.
  - eexists. split; [vm_compute; reflexivity|]. split.
    + apply list_elem_of_In. simpl. tauto.
    + vm_compute. reflexivity.
  - repeat split; vm_compute; reflexivity.
Qed.

Lemma undefined_encoding_deletes_parameter_witness :
  ∃ h, Example.update (Example.router Example.queryTestAndJohn) None
         Example.filteredByTestAndJohn Example.initialState
       = (Normal tt, h)
       ∧ OpDelete "columnFilters" ∈ trace h
       ∧ query h !! "columnFilters" = None
       ∧ cleanQuery h !! "columnFilters" = None.
Proof.
  destruct (proj1 undefined_encoding_deletes_parameter
              (Codec.encoders (parameters := standardParameters))
              standardSerializer (Example.router Example.queryTestAndJohn)
              None Example.filteredByTestAndJohn Example.initialState
              PColumnFilters)
    as (h & Hrun & _ & Hdel & Hcopy & _ & Hkey).
  - intros sl e _. destruct sl; discriminate.
  - vm_compute. reflexivity.
  - reflexivity.
  - vm_compute. reflexivity.
  - exists h. split; [exact Hrun|]. split; [exact Hdel|].
    split; [exact Hcopy|]. apply Hkey.
    intros p' Hne [Hch Hname]. destruct p'; vm_compute in Hch, Hname;
      first [discriminate | by apply Hne].
Defined.

(** C6.  When no encoder throws, the updater returns with the following
    locals.  [query] is the copy of the router's query, less the deleted
    keys; [updates] holds, for every key, the last value written to it;
    the final query is the merge of both, in which [updates] wins; the
    clean query is the final query without the keys whose value is
    [undefined]; and the one navigation goes to the pathname followed by
    [?] and the serialized clean query, or to the pathname alone when
    that string is empty. *)
Theorem update_strips_and_navigates :
  ∀ (codec : DefaultEncoders) (serializer : QuerySerializer)
    router options oldState newState,
    encodersReturn options oldState newState →
    ∃ h, run (update router options oldState newState) = (Normal tt, h)
      ∧ (∀ k, query h !! k
              = if decide (OpDelete k ∈ trace h) then None
                else Router.query router !! k)
      ∧ (∀ k, updates h !! k = lastWrite k (trace h))
      ∧ (∀ k, finalQuery h !! k
              = match updates h !! k with
                | Some v => Some v
                | None => query h !! k
                end)
      ∧ (∀ k, cleanQuery h !! k
              = match finalQuery h !! k with
                | Some QUndefined => None
                | other => other
                end)
      ∧ navigations (trace h)
        = [Router.pathname router
           +:+ (if decide (searchParamsString (cleanQuery h) = "") then ""
                else "?" +:+ searchParamsString (cleanQuery h))].
Proof.
  intros codec serializer router options oldState newState Hret.
  destruct (update_completes router _ _ _ Hret) as (h & Hrun & Hq & Hu & Htr).
  exists h. split; [done|]. split; [|split; [|split; [|split]]].
  - intros k. rewrite Hq. unfold mergedLocals. rewrite query_runOps. simpl.
    destruct (decide _) as [Hin|Hout]; destruct (decide _) as [Hin'|Hout'];
      try done.
    + destruct Hout'.
      by apply (deleted_completed router options oldState newState).
    + destruct Hout.
      by apply (deleted_completed router options oldState newState h).
  - intros k. rewrite Hu. unfold mergedLocals. rewrite updates_runOps. simpl.
    rewrite (lastWrite_completed router options oldState newState h _ Htr).
    rewrite lookup_empty. by destruct (lastWrite _ _).
  - apply lookup_finalQuery.
  - intros k. apply lookup_stripUndefined.
  - rewrite (navigations_completed _ _ _ _ _ Htr). unfold navigateUrl.
    by destruct (searchParamsString (cleanQuery h)).
Qed.

Lemma update_strips_and_navigates_witness :
  ∃ h, Example.update
         (Example.router {[ "globalFilter" := QString "initial";
                            "tab" := QUndefined ]})
         None Example.filteredByInitial
         (Example.setGlobalFilter (Some "next") Example.filteredByInitial)
       = (Normal tt, h)
       ∧ query h !! "globalFilter" = Some (QString "initial")
       ∧ updates h !! "globalFilter" = Some (QString "next")
       ∧ finalQuery h !! "tab" = Some QUndefined
       ∧ cleanQuery h !! "tab" = None
       ∧ navigations (trace h) = ["/?globalFilter=next"].
Proof.
  destruct (update_strips_and_navigates
              (Codec.encoders (parameters := standardParameters))
              standardSerializer
              (Example.router {[ "globalFilter" := QString "initial";
                                 "tab" := QUndefined ]})
              None Example.filteredByInitial
              (Example.setGlobalFilter (Some "next")
                 Example.filteredByInitial))
    as (h & Hrun & Hcopy & Hupd & Hfinal & Hclean & Hnav).
  - intros sl e _. destruct sl; discriminate.
  - exists h. split; [exact Hrun|].
    rewrite Hnav, Hclean, Hfinal, Hupd, !Hcopy.
    unfold Example.update in Hrun. injection Hrun as <-.
    repeat split; vm_compute; reflexivity.
Defined.




(** * The debounce layer: the property of the specification *)

(** C8.  A slice with a positive delay changes, and changes again within
    the delay.  Whatever timers are pending and whatever else changes, no
    call of the batched updater carries the slice before the second
    change, nor after it until the delay has passed anew, the first
    deadline included: the second change has restarted the timer.  Once
    the new deadline has passed, exactly one call carries the slice, from
    the value the second change replaced to the final value, and the timer
    is gone; run on that call, the updater navigates once, and the
    parameters of the slice hold the encoding of the final value.  When
    nothing else is pending or changing, that call is the only call of
    all. *)
Theorem debounce_coalesces_two_changes :
  ∀ (delays : Slice → N) (sl : Slice) (s : Debounce.Scheduler)
    (s0 s1 s2 : State) (d1 : N),
    (0 < delays sl)%N →
    changed sl s0 s1 = true → changed sl s1 s2 = true →
    (d1 < delays sl)%N →
    let first := Debounce.onStateChange delays s0 s1 s in
    let waited := Debounce.advance d1 first.1 in
    let second := Debounce.onStateChange delays s1 s2 waited.1 in
    Debounce.callsFor sl (first.2 ++ waited.2 ++ second.2) = []
    ∧ Debounce.timers second.1 sl
      = Some {| Debounce.due := Debounce.clock s + d1 + delays sl;
                Debounce.oldSnapshot := s1; Debounce.newSnapshot := s2 |}
    ∧ (∀ d2, (d2 < delays sl)%N →
             Debounce.callsFor sl (Debounce.advance d2 second.1).2 = [])
    ∧ (∀ d2, (delays sl ≤ d2)%N →
         ∃ o n,
           Debounce.callsFor sl (Debounce.advance d2 second.1).2 = [(o, n)]
           ∧ sameSlice sl o s1 ∧ sameSlice sl n s2
           ∧ Debounce.timers (Debounce.advance d2 second.1).1 sl = None
           ∧ ∀ (codec : DefaultEncoders) (serializer : QuerySerializer)
               router options,
               encodersReturn options o n →
               ∃ h, run (update router options o n) = (Normal tt, h)
                 ∧ navigations (trace h)
                   = [navigateUrl router (cleanQuery h)]
                 ∧ ∀ p, sliceOf p = sl →
                        overrideResult options n sl = None →
                        (∀ p', p' ≠ p →
                               ¬ claims options o n p' (paramName options p)) →
                        cleanQuery h !! paramName options p
                        = entry (defaultEncoded options s2 p))
    ∧ ((∀ sl', sl' ≠ sl →
               Debounce.timers s sl' = None
               ∧ changed sl' s0 s1 = false ∧ changed sl' s1 s2 = false) →
       first.2 = [] ∧ waited.2 = [] ∧ second.2 = []
       ∧ (∀ d2, (d2 < delays sl)%N →
                (Debounce.advance d2 second.1).2 = [])
       ∧ (∀ d2, (delays sl ≤ d2)%N →
                (Debounce.advance d2 second.1).2
                = [(Debounce.mergeSlices (fun sl' => bool_decide (sl' = sl))
                      s1 s2, s2)])).
Proof.
  intros delays sl s s0 s1 s2 d1 Hdelay Hch1 Hch2 Hd1 first waited second.
  (* the first change *)
  pose proof (onStateChange_untouched delays sl s0 s1 s Hdelay) as Hcalls1.
  destruct (onStateChange_timer delays sl s0 s1 s Hdelay Hch1)
    as [Htimer1 Hclock1].
  fold first in Hcalls1, Htimer1, Hclock1.
  (* the wait *)
  destruct (advanceTo_not_due sl (length allSlices)
              (Debounce.clock first.1 + d1) first.1 _ Htimer1)
    as (Hcalls2 & _ & Hclock2 & _).
  { cbn [Debounce.due]. lia. }
  change (Debounce.advanceTo _ _ first.1) with waited in Hcalls2, Hclock2.
  (* the second change *)
  pose proof (onStateChange_untouched delays sl s1 s2 waited.1 Hdelay)
    as Hcalls3.
  destruct (onStateChange_timer delays sl s1 s2 waited.1 Hdelay Hch2)
    as [Htimer3 Hclock3].
  fold second in Hcalls3, Htimer3, Hclock3.
  rewrite Hclock2, Hclock1 in Htimer3.
  split; [by rewrite !callsFor_app, Hcalls1, Hcalls2, Hcalls3|].
  split; [exact Htimer3|]. split; [|split].
  - intros d2 Hd2.
    destruct (advanceTo_not_due sl (length allSlices)
                (Debounce.clock second.1 + d2) second.1 _ Htimer3)
      as (Hcalls & _); [|exact Hcalls].
    cbn [Debounce.due]. rewrite Hclock3, Hclock2, Hclock1. lia.
  - intros d2 Hd2.
    destruct (advanceTo_due sl (length allSlices)
                (Debounce.clock second.1 + d2) second.1 _ Htimer3)
      as (o & n & Hcalls & Ho & Hn & Hgone).
    { cbn [Debounce.due]. rewrite Hclock3, Hclock2, Hclock1. lia. }
    { apply pendingCount_bound. }
    { exact Hch2. }
    cbn [Debounce.oldSnapshot Debounce.newSnapshot] in Ho, Hn.
    exists o, n. split; [exact Hcalls|]. split; [exact Ho|].
    split; [exact Hn|]. split; [exact Hgone|].
    intros codec serializer router options Hret.
    destruct (update_completes router _ _ _ Hret) as (h & Hrun & Hq & Hu & Htr).
    exists h. split; [done|]. split; [by eapply navigations_completed|].
    intros p Hp Hov Hothers. subst sl.
    apply encodersReturn_firstThrow in Hret.
    assert (changed (sliceOf p) o n = true) as Hch.
    { by rewrite (changed_sameSlice _ _ _ _ _ Ho Hn). }
    rewrite <- (defaultEncoded_sameSlice options n s2 p Hn).
    destruct (isDefined (defaultEncoded options n p)) eqn:Hdef.
    + destruct (defined_written router options o n h p
                  Hq Hu Hret Hch Hov Hdef Hothers) as [_ ->].
      unfold entry. by rewrite Hdef.
    + assert (defaultEncoded options n p = QUndefined) as Henc
        by by destruct (defaultEncoded options n p).
      destruct (undefined_deleted router options o n h p
                  Hq Hu Hret Hch Hov Henc Hothers) as [_ ->].
      unfold entry. by rewrite Hdef.
  - intros Halone.
    destruct (onStateChange_restarts delays sl s0 s1 s)
      as (Hc1 & _ & _ & Honly1); [done..| | |].
    { intros sl' Hne. by apply Halone. }
    { intros sl' Hne. by apply Halone. }
    fold first in Hc1, Honly1.
    assert (waited
            = ({| Debounce.clock := Debounce.clock first.1 + d1;
                  Debounce.timers := Debounce.timers first.1;
                  Debounce.observed := Debounce.observed first.1 |}, []))
      as Hwaited.
    { subst waited. apply (advance_before_due sl _ _ _ Honly1).
      cbn [Debounce.due]. lia. }
    destruct (onStateChange_restarts delays sl s1 s2 waited.1)
      as (Hc3 & _ & Hobs3 & Honly3); [done..| | |].
    { intros sl' Hne. by apply Halone. }
    { intros sl' Hne. rewrite Hwaited. cbn [fst Debounce.timers].
      rewrite Honly1. by destruct (decide (sl' = sl)). }
    fold second in Hc3, Hobs3, Honly3.
    split; [done|]. split; [by rewrite Hwaited|]. split; [done|]. split.
    + intros d2 Hd2. rewrite (advance_before_due sl _ _ _ Honly3); [done|].
      cbn [Debounce.due]. lia.
    + intros d2 Hd2.
      destruct (advance_past_due sl d2 second.1 _ Honly3) as [Hcalls _].
      { cbn [Debounce.due]. lia. }
      rewrite Hcalls, Hobs3. simpl. by rewrite mergeSlices_same.
Qed.

Lemma debounce_coalesces_two_changes_witness :
  let delays := fun sl => if decide (sl = GlobalFilter) then 1000%N else 0%N in
  let s1 := Example.setGlobalFilter (Some "a") Example.initialState in
  let s2 := Example.setGlobalFilter (Some "ab") Example.initialState in
  let first :=
    Debounce.onStateChange delays Example.initialState s1
      (Debounce.idle 0 Example.initialState) in
  let waited := Debounce.advance 300 first.1 in
  let second := Debounce.onStateChange delays s1 s2 waited.1 in
  first.2 = [] ∧ waited.2 = [] ∧ second.2 = []
  ∧ (Debounce.advance 900 second.1).2 = []
  ∧ (Debounce.advance 1000 second.1).2 = [(s1, s2)].
Proof.
  intros delays s1 s2 first waited second.
  destruct (debounce_coalesces_two_changes delays GlobalFilter
              (Debounce.idle 0 Example.initialState)
              Example.initialState s1 s2 300%N)
    as (_ & _ & _ & _ & Halone).
  - reflexivity.
  - reflexivity.
  - reflexivity.
  - reflexivity.
  - destruct Halone as (H1 & H2 & H3 & Hearly & Hlate).
    + intros sl' Hne. destruct sl'; first [by destruct Hne | by repeat split].
    + split; [exact H1|]. split; [exact H2|]. split; [exact H3|]. split.
      * apply Hearly. reflexivity.
      * apply (Hlate 1000%N). vm_compute. discriminate.
Defined.

(** * The pagination codec: the property of the specification *)

(** C4.  The default pagination codec, run by the updater: a pagination
    change makes the updater write the two parameters under the two
    configured names; in the navigated query each is absent exactly when
    its own subfield equals the default, whatever the other subfield is,
    and otherwise the page index is the decimal of [pageIndex + 1] and the
    page size its own decimal, provided no encoder throws and no other
    parameter claims the name.  Read back as numbers, what the codec
    writes is the page index plus one and the page size; decoding takes
    one off the page index, and decoding what was encoded gives back
    every pagination with a positive page size.  From the initial state,
    a change to [{pageIndex: 2, pageSize: 20}] sets [pageIndex] to [3],
    then [pageSize] to [20], and navigates to the query with both. *)
Theorem pagination_codec_two_parameters :
  (∀ (parameters : CodecParameters) (serializer : QuerySerializer)
     router options oldState newState,
     let d :=
       default initialPagination
               (options ▹ defaultValues ▹ DefaultValues.pagination) in
     encodersReturn options oldState newState →
     options ▹ encoders ▹ Encoders.pagination = None →
     changed Pagination oldState newState = true →
     ∃ h, run (update (codec := Codec.encoders) router options
                 oldState newState)
          = (Normal tt, h)
       ∧ ((∀ p', p' ≠ PPageIndex →
                 ¬ claims options oldState newState p'
                     (paramName options PPageIndex)) →
          cleanQuery h !! paramName options PPageIndex
          = if decide (pageIndex (pagination newState) = pageIndex d)
            then None
            else Some (QString
                         (String_of_N (pageIndex (pagination newState) + 1))))
       ∧ ((∀ p', p' ≠ PPageSize →
                 ¬ claims options oldState newState p'
                     (paramName options PPageSize)) →
          cleanQuery h !! paramName options PPageSize
          = if decide (pageSize (pagination newState) = pageSize d)
            then None
            else Some (QString (String_of_N (pageSize (pagination newState))))))
  ∧ (∀ (parameters : CodecParameters) value defaultValue text,
       (EncodedPagination.pageIndex
          (Codec.encodePagination value defaultValue) = QString text →
        parseN text = Some (pageIndex value + 1)%N)
       ∧ (EncodedPagination.pageSize
            (Codec.encodePagination value defaultValue) = QString text →
          parseN text = Some (pageSize value)))
  ∧ (∀ (parameters : CodecParameters) n sizeValue defaultValue,
       (0 < n)%N →
       pageIndex
         (Codec.decodePagination
            {| EncodedPagination.pageIndex := QString (String_of_N n);
               EncodedPagination.pageSize := sizeValue |} defaultValue)
       = (n - 1)%N)
  ∧ (∀ (parameters : CodecParameters) value defaultValue,
       (0 < pageSize value)%N →
       Codec.decodePagination (Codec.encodePagination value defaultValue)
         defaultValue
       = value)
  ∧ (∀ serializer : QuerySerializer,
       ∃ h, run (update
                   (codec := Codec.encoders (parameters := standardParameters))
                   (Example.router ∅) None Example.initialState
                   (Example.setPagination {| pageIndex := 2; pageSize := 20 |}
                      Example.initialState))
            = (Normal tt, h)
            ∧ trace h
              = [OpSet "pageIndex" (QString "3");
                 OpSet "pageSize" (QString "20");
                 OpNavigate (navigateUrl (Example.router ∅) (cleanQuery h))]
            ∧ cleanQuery h = {[ "pageIndex" := QString "3";
                                "pageSize" := QString "20" ]}).
Proof.
  split; [|split; [|split; [|split]]].
  - intros parameters serializer router options oldState newState d
      Hret Hnone Hch.
    destruct (update_completes (codec := Codec.encoders) router _ _ _ Hret)
      as (h & Hrun & Hq & Hu & Htr).
    apply encodersReturn_firstThrow in Hret.
    assert (overrideResult options newState Pagination = None) as Hov.
    { simpl. by rewrite Hnone. }
    assert (∀ p, sliceOf p = Pagination →
              (∀ p', p' ≠ p →
                     ¬ claims options oldState newState p'
                         (paramName options p)) →
              cleanQuery h !! paramName options p
              = entry (defaultEncoded (codec := Codec.encoders)
                         options newState p)) as Hkey.
    { intros p Hp Hothers. rewrite <- Hp in Hch, Hov.
      destruct (isDefined (defaultEncoded (codec := Codec.encoders)
                             options newState p)) eqn:Hdef.
      - destruct (defined_written (codec := Codec.encoders) router options
                    oldState newState h p Hq Hu Hret Hch Hov Hdef Hothers)
          as [_ ->].
        unfold entry. by rewrite Hdef.
      - assert (defaultEncoded (codec := Codec.encoders) options newState p
                = QUndefined) as Henc
          by by destruct (defaultEncoded options newState p).
        destruct (undefined_deleted (codec := Codec.encoders) router options
                    oldState newState h p Hq Hu Hret Hch Hov Henc Hothers)
          as [_ ->].
        unfold entry. by rewrite Hdef. }
    exists h. split; [done|]. split.
    + intros Hothers. rewrite (Hkey PPageIndex eq_refl Hothers).
      simpl. fold d. by destruct (decide _).
    + intros Hothers. rewrite (Hkey PPageSize eq_refl Hothers).
      simpl. fold d. by destruct (decide _).
  - intros parameters value defaultValue text.
    rewrite encodePagination_written. simpl.
    split; destruct (decide _); intros [= <-]; apply parseN_String_of_N.
  - intros parameters n sizeValue defaultValue Hn.
    unfold Codec.decodePagination. simpl.
    rewrite parseN_String_of_N. destruct (decide (n = 0%N)); [lia|done].
  - intros parameters value defaultValue.
    apply decodePagination_encodePagination.
  - intros serializer. eexists. split; [vm_compute; reflexivity|].
    split; [reflexivity|]. vm_compute. reflexivity.
Qed.

Lemma pagination_codec_two_parameters_witness :
  let router := Example.router {[ "pageSize" := QString "50" ]} in
  let oldState :=
    Example.setPagination {| pageIndex := 0; pageSize := 50 |}
      Example.initialState in
  let newState :=
    Example.setPagination {| pageIndex := 2; pageSize := 10 |}
      Example.initialState in
  (∃ h, Example.update router None oldState newState = (Normal tt, h)
        ∧ cleanQuery h !! "pageIndex" = Some (QString "3")
        ∧ cleanQuery h !! "pageSize" = None)
  ∧ Codec.decodePagination (parameters := standardParameters)
      (Codec.encodePagination (parameters := standardParameters)
         {| pageIndex := 2; pageSize := 20 |} None) None
    = {| pageIndex := 2; pageSize := 20 |}.
Proof.
  intros router oldState newState. split.
  - destruct (proj1 pagination_codec_two_parameters standardParameters
                standardSerializer router None oldState newState)
      as (h & Hrun & Hindex & Hsize).
    + intros sl e _. destruct sl; discriminate.
    + reflexivity.
    + reflexivity.
    + exists h. split; [exact Hrun|]. split.
      * apply Hindex. intros p' Hne [Hch Hname].
        destruct p'; vm_compute in Hch, Hname;
          first [discriminate | by apply Hne].
      * apply Hsize. intros p' Hne [Hch Hname].
        destruct p'; vm_compute in Hch, Hname;
          first [discriminate | by apply Hne].
  - apply (proj1 (proj2 (proj2 (proj2 pagination_codec_two_parameters)))
             standardParameters {| pageIndex := 2; pageSize := 20 |} None).
    reflexivity.
Defined.
